(** * Verification of [backend/whisper_service.py]

    A shallow embedding of the Whisper transcription service: the
    repetition collapser [_dedupe_repetitions], the transcription invoker
    [transcribe_audio] and the command-line entry point ([__main__]).

    Modelling choices.
    - A Python [str] is a list of characters, [list ascii]; a character
      stands for the code point of the same number, so the model covers
      texts over U+0000..U+00FF.  [isspace] and [lower_char] are Python's
      [str.isspace] and [str.lower] on that range, where [str.lower] works
      character by character.
    - A Python [int] is a [Z].
    - The dictionaries built by the program have string keys and string
      values and keep insertion order: association lists.
    - The speech engine is a black box that either returns or raises an
      instance of [Exception]; it is passed to the program as a record of
      functions and it does not write to standard output.
    - [sys.stderr], [sys.__stderr__] and standard output are fields of an
      explicit interpreter state that is threaded through the program. *)

From Stdlib Require Import List Ascii ZArith NArith QArith Bool Lia Arith.
From Stdlib Require String.
Import ListNotations String.StringSyntax.

Local Open Scope string_scope.
Local Open Scope list_scope.
Local Open Scope nat_scope.

(** ** Python strings *)

Abbreviation str := (list ascii).

Coercion String.list_ascii_of_string : String.string >-> list.

Module PyStr.

(** [str.isspace] on one character of U+0000..U+00FF. *)
Definition isspace (c : ascii) : bool :=
  let n := N_of_ascii c in
  (((9 <=? n) && (n <=? 13)) || ((28 <=? n) && (n <=? 32))
   || (n =? 133) || (n =? 160))%N.

(** [str.lower] on one character of U+0000..U+00FF. *)
Definition lower_char (c : ascii) : ascii :=
  let n := N_of_ascii c in
  if (((65 <=? n) && (n <=? 90))
      || ((192 <=? n) && (n <=? 222) && negb (n =? 215)))%N
  then ascii_of_N (n + 32)
  else c.

Definition lower (s : str) : str := map lower_char s.

Fixpoint lstrip (s : str) : str :=
  match s with
  | [] => []
  | c :: s' => if isspace c then lstrip s' else s
  end.

Definition rstrip (s : str) : str := rev (lstrip (rev s)).

Definition strip (s : str) : str := rstrip (lstrip s).

(** [sep.join(l)] *)
Fixpoint join (sep : str) (l : list str) : str :=
  match l with
  | [] => []
  | [x] => x
  | x :: l' => x ++ sep ++ join sep l'
  end.

(** [==] on two strings. *)
Fixpoint eqb (a b : str) : bool :=
  match a, b with
  | [], [] => true
  | x :: a', y :: b' => Ascii.eqb x y && eqb a' b'
  | _, _ => false
  end.

(** The character class [[\.!?]] of the splitting pattern. *)
Definition is_terminator (c : ascii) : bool :=
  Ascii.eqb c "." || Ascii.eqb c "!" || Ascii.eqb c "?".

(** [re.split(r'([\.!?])', text)]: the text between the matches, with
    each matched terminator kept as an element of its own, so that the
    result alternates body, terminator, body, ..., body. *)
Fixpoint re_split (text : str) : list str :=
  match text with
  | [] => [[]]
  | c :: rest =>
      if is_terminator c then [] :: [c] :: re_split rest
      else match re_split rest with
           | body :: more => (c :: body) :: more
           | [] => [[c]]
           end
  end.

(** [range(0, n, 2)] *)
Definition range2 (n : nat) : list nat :=
  map (fun k => 2 * k) (seq 0 (Nat.div2 (n + 1))).

(** [[x] * n] for a Python integer [n]: empty when [n <= 0]. *)
Definition times {A} (x : A) (n : Z) : list A := repeat x (Z.to_nat n).

End PyStr.

(** ** The repetition collapser *)

(** An element of the list [sentences]: [{'text': ..., 'count': ...}]. *)
Record entry := mkEntry { text : str; count : Z }.

Definition last_entry (sentences : list entry) : option entry :=
  match rev sentences with
  | [] => None
  | e :: _ => Some e
  end.

(** One iteration of the scanning loop, for the index [i]. *)
Definition scan_step (parts : list str) (sentences : list entry) (i : nat)
  : list entry :=
  let sent := PyStr.strip (nth i parts []) in
  let punct := if i + 1 <? length parts then nth (i + 1) parts [] else [] in
  match sent with
  | [] => sentences
  | _ :: _ =>
      let full := PyStr.strip (sent ++ punct) in
      match last_entry sentences with
      | Some e =>
          if PyStr.eqb (PyStr.lower (text e)) (PyStr.lower full)
          then removelast sentences ++ [mkEntry (text e) (count e + 1)]
          else sentences ++ [mkEntry full 1]
      | None => sentences ++ [mkEntry full 1]
      end
  end.

(** The first loop: the list [sentences] after the scan of [text]. *)
Definition scan_sentences (text : str) : list entry :=
  let parts := PyStr.re_split text in
  fold_left (scan_step parts) (PyStr.range2 (length parts)) [].

(** The second loop: the list [cleaned]. *)
Definition collect_cleaned (sentences : list entry) (max_repeats : Z)
  : list str :=
  fold_left
    (fun cleaned e =>
       let repeats := Z.min (count e) max_repeats in
       cleaned ++ PyStr.times (text e) repeats)
    sentences [].

Definition _dedupe_repetitions (text : str) (max_repeats : Z) : str :=
  let sentences := scan_sentences text in
  let cleaned := collect_cleaned sentences max_repeats in
  PyStr.strip (PyStr.join " " cleaned).

(** ** Structural views of the two loops

    The scan reads [parts] two elements at a time and appends to
    [sentences]; the definitions below describe the same computation by
    recursion on the data.  They are proved equal to the loops above. *)

(** The (body, terminator) pairs read by the scan; a last body that no
    terminator follows is paired with the empty string. *)
Fixpoint pairs (parts : list str) : list (str * str) :=
  match parts with
  | [] => []
  | [body] => [(body, [])]
  | body :: punct :: rest => (body, punct) :: pairs rest
  end.

(** The sentence a pair contributes: none when the body is blank. *)
Definition full_of (bp : str * str) : list str :=
  let sent := PyStr.strip (fst bp) in
  match sent with
  | [] => []
  | _ :: _ => [PyStr.strip (sent ++ snd bp)]
  end.

(** What the scan does with one sentence [full]: count it in the last run
    or open a new run. *)
Definition push (sentences : list entry) (full : str) : list entry :=
  match last_entry sentences with
  | Some e =>
      if PyStr.eqb (PyStr.lower (text e)) (PyStr.lower full)
      then removelast sentences ++ [mkEntry (text e) (count e + 1)]
      else sentences ++ [mkEntry full 1]
  | None => sentences ++ [mkEntry full 1]
  end.

(** The sentences of a text, in order, before they are grouped. *)
Definition sentence_list (text : str) : list str :=
  flat_map full_of (pairs (PyStr.re_split text)).

(** Case-insensitive equality of two sentences. *)
Definition eqci (a b : str) : Prop := PyStr.lower a = PyStr.lower b.

Definition eqcib (a b : str) : bool := PyStr.eqb (PyStr.lower a) (PyStr.lower b).

(** The runs of a list of sentences that starts inside a run of text [t]
    which has [c] elements so far. *)
Fixpoint runs_from (t : str) (c : Z) (l : list str) : list entry :=
  match l with
  | [] => [mkEntry t c]
  | s :: l' =>
      if eqcib t s then runs_from t (c + 1) l'
      else mkEntry t c :: runs_from s 1 l'
  end.

Definition runs (l : list str) : list entry :=
  match l with
  | [] => []
  | s :: l' => runs_from s 1 l'
  end.

(** What the second loop appends for one entry. *)
Definition emit (max_repeats : Z) (e : entry) : list str :=
  PyStr.times (text e) (Z.min (count e) max_repeats).

(** The entry of a run after it was cut to [max_repeats]. *)
Definition cap (max_repeats : Z) (e : entry) : entry :=
  mkEntry (text e) (Z.min (count e) max_repeats).

(** After the glossary of the spec: a run is a maximal sequence of
    consecutive sentences that are equal case-insensitively.  [groups l]
    cuts [l] into its runs and keeps every member of each run. *)
Fixpoint groups_from (t : str) (acc : list str) (l : list str)
  : list (list str) :=
  match l with
  | [] => [t :: rev acc]
  | s :: l' =>
      if eqcib t s then groups_from t (s :: acc) l'
      else (t :: rev acc) :: groups_from s [] l'
  end.

Definition groups (l : list str) : list (list str) :=
  match l with
  | [] => []
  | s :: l' => groups_from s [] l'
  end.

(** The first sentence of a run. *)
Definition first_of (g : list str) : str := hd [] g.

(** A run: not empty, and every member equals the first one
    case-insensitively. *)
Definition is_run (g : list str) : bool :=
  match g with
  | [] => false
  | t :: _ => forallb (eqcib t) g
  end.

(** Maximal runs: two neighbours never start with equal sentences. *)
Fixpoint adjacent_differ (G : list (list str)) : bool :=
  match G with
  | [] => true
  | g :: G' =>
      match G' with
      | [] => true
      | h :: _ => negb (eqcib (first_of g) (first_of h))
      end && adjacent_differ G'
  end.

(** What the claim on casing asks for a run [g]: [min(count, max_repeats)]
    copies of the first sentence of [g]. *)
Definition copies (max_repeats : Z) (g : list str) : list str :=
  repeat (first_of g) (Z.to_nat (Z.min (Z.of_nat (length g)) max_repeats)).

(** The number of leading elements of [l] equal to [s] case-insensitively. *)
Fixpoint prefix_run (s : str) (l : list str) : nat :=
  match l with
  | [] => 0
  | x :: l' => if eqcib s x then S (prefix_run s l') else 0
  end.

(** ** Shapes of strings and of sentence lists *)

(** Only whitespace. *)
Definition blank (s : str) : Prop := Forall (fun c => PyStr.isspace c = true) s.

(** No sentence terminator. *)
Definition term_free (s : str) : Prop :=
  Forall (fun c => PyStr.is_terminator c = false) s.

Definition head_ok (s : str) : bool :=
  match s with
  | [] => true
  | c :: _ => negb (PyStr.isspace c)
  end.

(** Neither the first nor the last character is whitespace. *)
Definition tight (s : str) : Prop :=
  head_ok s = true /\ head_ok (rev s) = true.

(** A sentence body as the scan keeps it: not empty, trimmed, and without
    terminator. *)
Definition is_body (s : str) : Prop := s <> [] /\ tight s /\ term_free s.

(** The pairs that come out of a split: every body is free of terminators
    and is followed by one terminator, except the last body, which is
    followed by nothing. *)
Inductive split_pairs : list (str * str) -> Prop :=
| sp_last b : term_free b -> split_pairs [(b, [])]
| sp_cons b p rest :
    term_free b -> PyStr.is_terminator p = true -> split_pairs rest ->
    split_pairs ((b, [p]) :: rest).

(** A list of sentences as the scan produces it: bodies with their
    terminator, and possibly a last body without one. *)
Inductive wf_sentences : list str -> Prop :=
| wf_nil : wf_sentences []
| wf_open s : is_body s -> wf_sentences [s]
| wf_cons s p rest :
    is_body s -> PyStr.is_terminator p = true -> wf_sentences rest ->
    wf_sentences ((s ++ [p]) :: rest).

(** A sentence that ends with its terminator. *)
Definition closed (f : str) : Prop :=
  exists s p, f = s ++ [p] /\ is_body s /\ PyStr.is_terminator p = true.

(** The shape of a sentence that the scan keeps: a body and then nothing
    or one terminator. *)
Definition sentence_shape (f : str) : Prop :=
  exists s q,
    f = s ++ q /\ is_body s
    /\ (q = [] \/ exists p, q = [p] /\ PyStr.is_terminator p = true).

(** A pair that has a terminator has a body that is not blank. *)
Definition terminated_has_body (bp : str * str) : Prop :=
  snd bp <> [] -> PyStr.strip (fst bp) <> [].

(** ** Dictionaries and [json.dumps] *)

(** A dictionary with string keys and string values, in insertion order. *)
Definition dict := list (str * str).

Definition kv (key value : str) : str * str := (key, value).

Definition keys (d : dict) : list str := map fst d.

Fixpoint dict_get (d : dict) (key : str) : option str :=
  match d with
  | [] => None
  | (k, v) :: d' => if PyStr.eqb k key then Some v else dict_get d' key
  end.

Module Json.

Definition quote : ascii := "034"%char.
Definition backslash : ascii := "092"%char.
Definition newline : ascii := "010"%char.

(** One digit of the format [%04x]. *)
Definition hex_digit (n : N) : ascii :=
  nth (N.to_nat n) (String.list_ascii_of_string "0123456789abcdef") "0"%char.

(** The replacement of one character by [json.dumps] with its default
    [ensure_ascii=True]: the characters from the space to the tilde stand
    for themselves, except the quote and the backslash; backspace, form
    feed, newline, carriage return and tab have a short escape; every
    other character is written [\u00xx]. *)
Definition escape_char (c : ascii) : str :=
  let n := N_of_ascii c in
  if Ascii.eqb c quote then [backslash; quote]
  else if Ascii.eqb c backslash then [backslash; backslash]
  else if (n =? 8)%N then [backslash; "b"%char]
  else if (n =? 12)%N then [backslash; "f"%char]
  else if (n =? 10)%N then [backslash; "n"%char]
  else if (n =? 13)%N then [backslash; "r"%char]
  else if (n =? 9)%N then [backslash; "t"%char]
  else if ((32 <=? n) && (n <=? 126))%N then [c]
  else [backslash; "u"%char; "0"%char; "0"%char;
        hex_digit (n / 16); hex_digit (n mod 16)].

Definition encode_string (s : str) : str :=
  quote :: flat_map escape_char s ++ [quote].

(** One item of a dictionary: the key, a colon and a space, the value. *)
Definition item_text (item : str * str) : str :=
  encode_string (fst item) ++ ": " ++ encode_string (snd item).

(** [json.dumps(d)] for a dictionary of strings, with the default
    separators. *)
Definition dumps (d : dict) : str :=
  "{" ++ PyStr.join ", " (map item_text d) ++ "}".

(** The JSON grammar (RFC 8259) of strings and of objects whose values
    are strings or such objects. *)

Definition is_hex (c : ascii) : bool :=
  let n := N_of_ascii c in
  (((48 <=? n) && (n <=? 57)) || ((97 <=? n) && (n <=? 102))
   || ((65 <=? n) && (n <=? 70)))%N.

Definition unescaped (c : ascii) : bool :=
  (32 <=? N_of_ascii c)%N && negb (Ascii.eqb c quote)
  && negb (Ascii.eqb c backslash).

Definition short_escape (c : ascii) : bool :=
  Ascii.eqb c quote || Ascii.eqb c backslash || Ascii.eqb c "/"
  || Ascii.eqb c "b" || Ascii.eqb c "f" || Ascii.eqb c "n"
  || Ascii.eqb c "r" || Ascii.eqb c "t".

Definition is_ws (c : ascii) : bool :=
  let n := N_of_ascii c in
  ((n =? 32) || (n =? 9) || (n =? 10) || (n =? 13))%N.

Definition ws (s : str) : Prop := Forall (fun c => is_ws c = true) s.

Inductive chars : str -> Prop :=
| chars_nil : chars []
| chars_plain c s : unescaped c = true -> chars s -> chars (c :: s)
| chars_short c s :
    short_escape c = true -> chars s -> chars (backslash :: c :: s)
| chars_u h1 h2 h3 h4 s :
    is_hex h1 = true -> is_hex h2 = true ->
    is_hex h3 = true -> is_hex h4 = true ->
    chars s -> chars (backslash :: "u"%char :: h1 :: h2 :: h3 :: h4 :: s).

Inductive value : str -> Prop :=
| value_string body : chars body -> value (quote :: body ++ [quote])
| value_empty_object w : ws w -> value ("{"%char :: w ++ ["}"%char])
| value_object ms : members ms -> value ("{"%char :: ms ++ ["}"%char])
with members : str -> Prop :=
| members_one m : member m -> members m
| members_more m ms :
    member m -> members ms -> members (m ++ ","%char :: ms)
with member : str -> Prop :=
| member_intro w1 key w2 w3 v w4 :
    ws w1 -> chars key -> ws w2 -> ws w3 -> value v -> ws w4 ->
    member (w1 ++ (quote :: key ++ [quote]) ++ w2 ++ ":"%char :: w3 ++ v ++ w4).

(** A character that can be seen and is not a line break: space to
    tilde. *)
Definition printable (c : ascii) : bool :=
  ((32 <=? N_of_ascii c) && (N_of_ascii c <=? 126))%N.

End Json.

(** ** The interpreter state, exceptions and the engine *)

(** The objects [sys.stderr] can be bound to: the stream the interpreter
    started with, the file opened on [os.devnull], or any other stream. *)
Inductive stream := Console | DevNull | OtherStream (n : nat).

Record World := mkWorld {
  sys_stderr : stream;          (* sys.stderr *)
  sys_dunder_stderr : stream;   (* sys.__stderr__ *)
  stdout : str                  (* what was written to standard output *)
}.

(** The end of a call: a value, or an instance [e] of [Exception] with
    its message [str(e)]. *)
Inductive outcome (A : Type) : Type :=
| Returns (a : A)
| Raises (message : str).
Arguments Returns {A} a.
Arguments Raises {A} message.

(** Computations on the interpreter state that may raise. *)
Definition M (A : Type) : Type := World -> outcome A * World.

Definition ret {A} (a : A) : M A := fun w => (Returns a, w).

Definition bind {A B} (c : M A) (k : A -> M B) : M B :=
  fun w =>
    match c w with
    | (Returns a, w') => k a w'
    | (Raises e, w') => (Raises e, w')
    end.

(** A call of the engine: it returns or raises, and leaves the state. *)
Definition call {A} (o : outcome A) : M A := fun w => (o, w).

(** [try: body except Exception as e: handler(str(e))].  The state the
    body has reached when it raises is the state the handler starts in. *)
Definition try_except {A} (body : M A) (handler : str -> M A) : M A :=
  fun w =>
    match body w with
    | (Returns a, w') => (Returns a, w')
    | (Raises e, w') => handler e w'
    end.

Definition set_stderr (s : stream) : M unit :=
  fun w => (Returns tt, mkWorld s (sys_dunder_stderr w) (stdout w)).

Definition get_dunder_stderr : M stream :=
  fun w => (Returns (sys_dunder_stderr w), w).

(** [print(s)] *)
Definition print (s : str) (w : World) : World :=
  mkWorld (sys_stderr w) (sys_dunder_stderr w)
          (stdout w ++ s ++ [Json.newline]).

Declare Scope py_scope.
Delimit Scope py_scope with py.
Notation "x <- c1 ;; c2" := (bind c1 (fun x => c2))
  (at level 61, c1 at next level, right associativity) : py_scope.
Notation "c1 ;; c2" := (bind c1 (fun _ => c2))
  (at level 61, right associativity) : py_scope.

(** The keyword arguments of [model.transcribe]. *)
Record DecodingOptions := mkOptions {
  fp16 : bool;
  verbose : option bool;
  language : str;
  temperature : Z;
  best_of : Z;
  beam_size : Z;
  condition_on_previous_text : bool;
  compression_ratio_threshold : Q;
  logprob_threshold : Q;
  no_speech_threshold : Q
}.

(** The part of the engine's result that the program reads:
    [result['text']]. *)
Record RawResult := mkRawResult { result_text : str }.

(** The speech engine: [whisper.load_model] and [model.transcribe]. *)
Record Engine := mkEngine {
  model : Type;
  load_model : str -> outcome model;
  transcribe : model -> str -> DecodingOptions -> outcome RawResult
}.

(** The keyword arguments that [transcribe_audio] passes. *)
Definition decoding_options (lang : str) : DecodingOptions :=
  {| fp16 := false;
     verbose := None;
     language := lang;
     temperature := 0;
     best_of := 5;
     beam_size := 5;
     condition_on_previous_text := false;
     compression_ratio_threshold := 24 # 10;
     logprob_threshold := - (1 # 1);
     no_speech_threshold := 6 # 10 |}.

Definition transcribe_audio (whisper : Engine)
    (audio_path model_size lang : str) : M dict :=
  try_except
    (set_stderr DevNull ;;
     mdl <- call (load_model whisper model_size) ;;
     result <- call (transcribe whisper mdl audio_path (decoding_options lang)) ;;
     original <- get_dunder_stderr ;;
     set_stderr original ;;
     let cleaned_text :=
       _dedupe_repetitions (PyStr.strip (result_text result)) 2 in
     ret [kv "text" cleaned_text; kv "status" "success"])%py
    (fun e => ret [kv "text" ""; kv "status" "error"; kv "error" e]).

(** ** The command line *)

(** What the program reads from its surroundings: the environment
    variables and the file system. *)
Record Env := mkEnv {
  environ : str -> option str;
  os_path_exists : str -> bool
}.

(** [os.getenv(name, default)] *)
Definition getenv (env : Env) (name default : str) : str :=
  match environ env name with
  | Some v => v
  | None => default
  end.

(** The block under [if __name__ == '__main__'], for [sys.argv = argv]:
    the exit status of the process and the state it leaves.  [sys.exit(1)]
    ends the process with status 1, the end of the script with status 0; an
    exception that nothing catches would end it with status 1. *)
Definition main (whisper : Engine) (env : Env) (argv : list str) (w : World)
  : Z * World :=
  if length argv <? 2 then
    (1%Z, print (Json.dumps [kv "error" "No audio file provided"]) w)
  else
    let audio_path := nth 1 argv [] in
    let model_size :=
      if 2 <? length argv then nth 2 argv []
      else getenv env "WHISPER_MODEL" "base.en" in
    let lang :=
      if 3 <? length argv then nth 3 argv []
      else getenv env "WHISPER_LANGUAGE" "en" in
    if negb (os_path_exists env audio_path) then
      (1%Z, print (Json.dumps [kv "error" ("File not found: " ++ audio_path)]) w)
    else
      match transcribe_audio whisper audio_path model_size lang w with
      | (Returns result, w') => (0%Z, print (Json.dumps result) w')
      | (Raises _, w') => (1%Z, w')
      end.

(** The two dictionaries [transcribe_audio] can return. *)
Definition error_result (e : str) : dict :=
  [kv "text" ""; kv "status" "error"; kv "error" e].

Definition success_result (heard : str) : dict :=
  [kv "text" (_dedupe_repetitions (PyStr.strip heard) 2); kv "status" "success"].

(** ** Sample surroundings *)

(** A fresh process: nothing written yet, [sys.stderr] is the stream the
    interpreter started with. *)
Definition fresh_world : World := mkWorld Console Console [].

(** An engine whose model cannot be loaded. *)
Definition engine_without_weights : Engine :=
  mkEngine unit (fun _ => Raises "model not found")
           (fun _ _ _ => Returns (mkRawResult [])).

(** An engine that loads and then fails on the audio. *)
Definition engine_bad_audio : Engine :=
  mkEngine unit (fun _ => Returns tt) (fun _ _ _ => Raises "corrupted audio").

(** An engine that hears [heard] in every file. *)
Definition engine_hearing (heard : str) : Engine :=
  mkEngine unit (fun _ => Returns tt) (fun _ _ _ => Returns (mkRawResult heard)).

(** Surroundings with no variable set, in which exactly the files of
    [files] exist. *)
Definition env_with (files : list str) : Env :=
  mkEnv (fun _ => None) (fun path => existsb (PyStr.eqb path) files).

(** ** Measures and a reader for encoded strings *)

(** The sum of the counts of a list of entries. *)
Definition sum_counts (sentences : list entry) : Z :=
  fold_right (fun e total => (count e + total)%Z) 0%Z sentences.

(** The same entry with its text in lower case. *)
Definition lower_entry (e : entry) : entry :=
  mkEntry (PyStr.lower (text e)) (count e).

Module JsonRead.

(** The value of a hexadecimal digit. *)
Definition hex_value (c : ascii) : option N :=
  let n := N_of_ascii c in
  if ((48 <=? n) && (n <=? 57))%N then Some (n - 48)%N
  else if ((97 <=? n) && (n <=? 102))%N then Some (n - 87)%N
  else if ((65 <=? n) && (n <=? 70))%N then Some (n - 55)%N
  else None.

(** The character a short escape stands for. *)
Definition unescape_short (c : ascii) : option ascii :=
  if Ascii.eqb c Json.quote then Some Json.quote
  else if Ascii.eqb c Json.backslash then Some Json.backslash
  else if Ascii.eqb c "/" then Some "/"%char
  else if Ascii.eqb c "b" then Some "008"%char
  else if Ascii.eqb c "f" then Some "012"%char
  else if Ascii.eqb c "n" then Some "010"%char
  else if Ascii.eqb c "r" then Some "013"%char
  else if Ascii.eqb c "t" then Some "009"%char
  else None.

(** The characters between the quotes of a JSON string, read back; [None]
    when they are not the body of a JSON string or name a character
    beyond U+00FF. *)
Fixpoint decode_chars (s : str) : option str :=
  match s with
  | [] => Some []
  | c :: s1 =>
      if Ascii.eqb c Json.backslash then
        match s1 with
        | [] => None
        | e :: s2 =>
            if Ascii.eqb e "u" then
              match s2 with
              | h1 :: h2 :: h3 :: h4 :: s3 =>
                  match decode_chars s3 with
                  | Some r =>
                      match hex_value h1, hex_value h2, hex_value h3,
                            hex_value h4 with
                      | Some a, Some b, Some x, Some y =>
                          let n := (((a * 16 + b) * 16 + x) * 16 + y)%N in
                          if (n <? 256)%N then Some (ascii_of_N n :: r)
                          else None
                      | _, _, _, _ => None
                      end
                  | None => None
                  end
              | _ => None
              end
            else
              match decode_chars s2 with
              | Some r =>
                  match unescape_short e with
                  | Some x => Some (x :: r)
                  | None => None
                  end
              | None => None
              end
        end
      else if Ascii.eqb c Json.quote then None
      else if (32 <=? N_of_ascii c)%N then
        match decode_chars s1 with
        | Some r => Some (c :: r)
        | None => None
        end
      else None
  end.

(** A JSON string, quotes included, read back. *)
Definition decode_string (s : str) : option str :=
  match s with
  | [] => None
  | q :: rest =>
      match rev rest with
      | [] => None
      | q' :: body =>
          if Ascii.eqb q Json.quote && Ascii.eqb q' Json.quote
          then decode_chars (rev body)
          else None
      end
  end.

End JsonRead.

(** ** Python strings: lemmas *)

Module PyStrFacts.
Import PyStr.

Lemma eqb_eq (a b : str) : eqb a b = true <-> a = b.
Proof.
  revert b; induction a as [|x a IH]; intros [|y b]; simpl;
    try (split; congruence).
  rewrite andb_true_iff, Ascii.eqb_eq, IH. split.
  - intros [-> ->]; reflexivity.
  - intros H; inversion H; auto.
Qed.

Lemma eqb_refl (a : str) : eqb a a = true.
Proof. apply eqb_eq; reflexivity. Qed.

Lemma terminator_not_space (c : ascii) :
  is_terminator c = true -> isspace c = false.
Proof.
  unfold is_terminator. rewrite !orb_true_iff, !Ascii.eqb_eq.
  intros [[->| ->]| ->]; reflexivity.
Qed.

Lemma lstrip_blank (pad s : str) : blank pad -> lstrip (pad ++ s) = lstrip s.
Proof.
  induction 1 as [|c pad Hc _ IH]; simpl; [reflexivity|].
  rewrite Hc. exact IH.
Qed.

Lemma lstrip_head_ok (s : str) : head_ok s = true -> lstrip s = s.
Proof.
  destruct s as [|c s]; simpl; [reflexivity|].
  destruct (isspace c); [discriminate|reflexivity].
Qed.

Lemma head_ok_lstrip (s : str) : head_ok (lstrip s) = true.
Proof.
  induction s as [|c s IH]; simpl; [reflexivity|].
  destruct (isspace c) eqn:E; [exact IH|]. simpl. rewrite E. reflexivity.
Qed.

Lemma lstrip_snoc (s : str) (c : ascii) :
  isspace c = false -> lstrip (s ++ [c]) = lstrip s ++ [c].
Proof.
  intros Hc. induction s as [|x s IH]; simpl.
  - rewrite Hc. reflexivity.
  - destruct (isspace x); [exact IH|reflexivity].
Qed.

Lemma rstrip_cons (c : ascii) (s : str) :
  isspace c = false -> rstrip (c :: s) = c :: rstrip s.
Proof.
  intros Hc. unfold rstrip. simpl rev.
  rewrite lstrip_snoc by exact Hc. rewrite rev_unit. reflexivity.
Qed.

Lemma head_ok_rstrip (s : str) : head_ok s = true -> head_ok (rstrip s) = true.
Proof.
  destruct s as [|c s]; [reflexivity|]. simpl. intros H.
  apply negb_true_iff in H. rewrite rstrip_cons by exact H.
  simpl. rewrite H. reflexivity.
Qed.

Lemma strip_tight (s : str) : tight s -> strip s = s.
Proof.
  intros [H1 H2]. unfold strip, rstrip.
  rewrite (lstrip_head_ok s H1), (lstrip_head_ok _ H2). apply rev_involutive.
Qed.

Lemma tight_strip (s : str) : tight (strip s).
Proof.
  split.
  - apply head_ok_rstrip, head_ok_lstrip.
  - unfold strip, rstrip. rewrite rev_involutive. apply head_ok_lstrip.
Qed.

Lemma strip_strip (s : str) : strip (strip s) = strip s.
Proof. apply strip_tight, tight_strip. Qed.

Lemma strip_blank_app (pad s : str) :
  blank pad -> strip (pad ++ s) = strip s.
Proof. intros H. unfold strip. rewrite lstrip_blank by exact H. reflexivity. Qed.

Lemma strip_blank (pad : str) : blank pad -> strip pad = [].
Proof.
  intros H. rewrite <- (app_nil_r pad), strip_blank_app by exact H.
  reflexivity.
Qed.

Lemma head_ok_app (a b : str) : a <> [] -> head_ok (a ++ b) = head_ok a.
Proof. destruct a; [congruence|reflexivity]. Qed.

Lemma rev_not_nil (a : str) : a <> [] -> rev a <> [].
Proof.
  intros H E. apply H. rewrite <- (rev_involutive a), E. reflexivity.
Qed.

Lemma tight_app (a m b : str) :
  a <> [] -> b <> [] -> tight a -> tight b -> tight (a ++ m ++ b).
Proof.
  intros Ha Hb [Ha1 _] [_ Hb2]. split.
  - rewrite head_ok_app; assumption.
  - rewrite !rev_app_distr, <- app_assoc, head_ok_app; [assumption|].
    apply rev_not_nil, Hb.
Qed.

Lemma tight_snoc (s : str) (p : ascii) :
  s <> [] -> tight s -> isspace p = false -> tight (s ++ [p]).
Proof.
  intros Hs [H1 _] Hp. split.
  - rewrite head_ok_app; assumption.
  - rewrite rev_unit. simpl. rewrite Hp. reflexivity.
Qed.

Lemma term_free_lstrip (s : str) : term_free s -> term_free (lstrip s).
Proof.
  induction 1 as [|c s Hc Hs IH]; simpl; [constructor|].
  destruct (isspace c); [exact IH|constructor; assumption].
Qed.

Lemma term_free_strip (s : str) : term_free s -> term_free (strip s).
Proof.
  intros H. unfold strip, rstrip. apply Forall_rev, term_free_lstrip.
  apply Forall_rev, term_free_lstrip, H.
Qed.

Lemma join_cons (sep x : str) (l : list str) :
  join sep (x :: l)
  = x ++ match l with [] => [] | _ :: _ => sep ++ join sep l end.
Proof. destruct l; simpl; [symmetry; apply app_nil_r|reflexivity]. Qed.

Lemma tight_join (sep : str) (l : list str) :
  Forall (fun f => f <> [] /\ tight f) l ->
  tight (join sep l) /\ (l <> [] -> join sep l <> []).
Proof.
  induction 1 as [|x l [Hx Tx] Hl [IH1 IH2]].
  - split; [split; reflexivity|congruence].
  - rewrite join_cons. destruct l as [|y l].
    + rewrite app_nil_r. split; [exact Tx|intros _; exact Hx].
    + split.
      * apply tight_app; [exact Hx|apply IH2; discriminate|exact Tx|exact IH1].
      * intros _ E. apply app_eq_nil in E. destruct E as [E _]. auto.
Qed.

Lemma re_split_term_free (b : str) : term_free b -> re_split b = [b].
Proof.
  induction 1 as [|c b Hc Hb IH]; simpl; [reflexivity|].
  rewrite Hc, IH. reflexivity.
Qed.

Lemma re_split_terminator (b : str) (p : ascii) (rest : str) :
  term_free b -> is_terminator p = true ->
  re_split (b ++ p :: rest) = b :: [p] :: re_split rest.
Proof.
  intros Hb Hp. induction Hb as [|c b Hc Hb IH]; simpl.
  - rewrite Hp. reflexivity.
  - rewrite Hc, IH. reflexivity.
Qed.

End PyStrFacts.

(** ** The model on small inputs *)

Example re_split_keeps_terminators :
  PyStr.re_split "a.b! c" = [("a" : str); ("." : str); ("b" : str);
                             ("!" : str); (" c" : str)].
Proof. reflexivity. Qed.

Example re_split_empty : PyStr.re_split "" = [[]].
Proof. reflexivity. Qed.

Example strip_both_sides : PyStr.strip "  to be  " = "to be".
Proof. reflexivity. Qed.

Example lower_keeps_punctuation : PyStr.lower "Hi There." = "hi there.".
Proof. reflexivity. Qed.

Example scan_counts_runs :
  scan_sentences "No. no. Yes? no."
  = [mkEntry "No." 2; mkEntry "Yes?" 1; mkEntry "no." 1].
Proof. reflexivity. Qed.

Example dedupe_drops_lone_terminators :
  _dedupe_repetitions "Wait.  .  ! ?  Wait. wait. WAIT" 2 = "Wait. Wait. WAIT".
Proof. vm_compute. reflexivity. Qed.

Example dumps_error_object :
  Json.dumps [kv "error" "No"]
  = "{" ++ [Json.quote] ++ "error" ++ [Json.quote] ++ ": "
        ++ [Json.quote] ++ "No" ++ [Json.quote] ++ "}".
Proof. reflexivity. Qed.

Example dumps_escapes_line_break :
  Json.encode_string [Json.newline]
  = [Json.quote; Json.backslash; "n"%char; Json.quote].
Proof. reflexivity. Qed.

Example main_success :
  main (engine_hearing " Fine. fine. FINE. ") (env_with [("a.wav" : str)])
       [("whisper_service.py" : str); ("a.wav" : str)] fresh_world
  = (0%Z,
     mkWorld Console Console
       (Json.dumps [kv "text" "Fine. Fine."; kv "status" "success"]
          ++ [Json.newline])).
Proof. vm_compute. reflexivity. Qed.

(** ** The loops and their structural views agree *)

Lemma pairs_ind2 (P : list str -> Prop) :
  P [] -> (forall b, P [b]) ->
  (forall b p rest, P rest -> P (b :: p :: rest)) ->
  forall l, P l.
Proof.
  intros H0 H1 H2.
  fix IH 1. intros [|b [|p rest]]; [apply H0 | apply H1 | apply H2, IH].
Qed.

Lemma scan_step_push (parts : list str) (sentences : list entry) (i : nat) :
  scan_step parts sentences i
  = fold_left push
      (full_of (nth i parts [],
                if i + 1 <? length parts then nth (i + 1) parts [] else []))
      sentences.
Proof.
  unfold scan_step, full_of, push; simpl.
  destruct (PyStr.strip (nth i parts [])); reflexivity.
Qed.

Lemma scan_range2_pairs (parts : list str) :
  forall rest pre k acc,
    parts = pre ++ rest -> length pre = 2 * k ->
    fold_left (scan_step parts)
      (map (fun j => 2 * j) (seq k (Nat.div2 (length rest + 1)))) acc
    = fold_left push (flat_map full_of (pairs rest)) acc.
Proof.
  induction rest as [|b|b p rest IH] using pairs_ind2; intros pre k acc Hp Hk.
  - reflexivity.
  - cbn [length Nat.add Nat.div2 seq map fold_left pairs flat_map].
    rewrite scan_step_push, app_nil_r.
    assert (Hb : nth (2 * k) parts [] = b).
    { subst parts. rewrite app_nth2 by lia.
      replace (2 * k - length pre) with 0 by lia. reflexivity. }
    assert (Hl : (2 * k + 1 <? length parts) = false).
    { apply Nat.ltb_ge. subst parts. rewrite length_app; simpl. lia. }
    rewrite Hb, Hl. reflexivity.
  - replace (Nat.div2 (length (b :: p :: rest) + 1))
      with (S (Nat.div2 (length rest + 1)))
      by (simpl; rewrite !Nat.add_1_r; reflexivity).
    cbn [seq map fold_left pairs flat_map]. rewrite fold_left_app.
    rewrite scan_step_push.
    assert (Hb : nth (2 * k) parts [] = b).
    { subst parts. rewrite app_nth2 by lia.
      replace (2 * k - length pre) with 0 by lia. reflexivity. }
    assert (Hq : nth (2 * k + 1) parts [] = p).
    { subst parts. rewrite app_nth2 by lia.
      replace (2 * k + 1 - length pre) with 1 by lia. reflexivity. }
    assert (Hl : (2 * k + 1 <? length parts) = true).
    { apply Nat.ltb_lt. subst parts. rewrite length_app; simpl. lia. }
    rewrite Hb, Hq, Hl.
    apply (IH (pre ++ [b; p]) (S k)).
    + subst parts. rewrite <- app_assoc. reflexivity.
    + rewrite length_app; simpl. lia.
Qed.

Lemma scan_sentences_push (text : str) :
  scan_sentences text = fold_left push (sentence_list text) [].
Proof.
  unfold scan_sentences, sentence_list, PyStr.range2.
  apply (scan_range2_pairs _ _ [] 0); reflexivity.
Qed.

Lemma last_entry_snoc (acc : list entry) (e : entry) :
  last_entry (acc ++ [e]) = Some e.
Proof. unfold last_entry. rewrite rev_unit. reflexivity. Qed.

Lemma push_snoc (acc : list entry) (e : entry) (s : str) :
  push (acc ++ [e]) s
  = if eqcib (text e) s then acc ++ [mkEntry (text e) (count e + 1)]
    else (acc ++ [e]) ++ [mkEntry s 1].
Proof.
  unfold push, eqcib. rewrite last_entry_snoc, removelast_last. reflexivity.
Qed.

Lemma fold_push_from (l : list str) :
  forall acc t c,
    fold_left push l (acc ++ [mkEntry t c]) = acc ++ runs_from t c l.
Proof.
  induction l as [|s l IH]; intros acc t c; simpl.
  - reflexivity.
  - rewrite push_snoc; simpl. destruct (eqcib t s).
    + apply IH.
    + rewrite IH, <- app_assoc. reflexivity.
Qed.

Lemma fold_push_runs (l : list str) : fold_left push l [] = runs l.
Proof.
  destruct l as [|s l]; simpl; [reflexivity|].
  apply (fold_push_from l [] s 1).
Qed.

Lemma scan_sentences_runs (text : str) :
  scan_sentences text = runs (sentence_list text).
Proof. rewrite scan_sentences_push. apply fold_push_runs. Qed.

Lemma collect_cleaned_emit (sentences : list entry) (m : Z) :
  collect_cleaned sentences m = flat_map (emit m) sentences.
Proof.
  unfold collect_cleaned.
  assert (H : forall l acc,
             fold_left (fun cleaned e =>
                          cleaned ++ PyStr.times (text e) (Z.min (count e) m))
                       l acc
             = acc ++ flat_map (emit m) l).
  { induction l as [|e l IH]; intros acc; simpl.
    - symmetry; apply app_nil_r.
    - rewrite IH, <- app_assoc. reflexivity. }
  apply (H sentences []).
Qed.

Lemma dedupe_unfold (text : str) (m : Z) :
  _dedupe_repetitions text m
  = PyStr.strip
      (PyStr.join " " (flat_map (emit m) (runs (sentence_list text)))).
Proof.
  unfold _dedupe_repetitions.
  rewrite collect_cleaned_emit, scan_sentences_runs. reflexivity.
Qed.

(** ** Case-insensitive equality *)

Lemma eqcib_eqci (a b : str) : eqcib a b = true <-> eqci a b.
Proof. apply PyStrFacts.eqb_eq. Qed.

Lemma eqcib_refl (a : str) : eqcib a a = true.
Proof. apply PyStrFacts.eqb_refl. Qed.

Lemma eqcib_false (a b : str) : eqcib a b = false <-> ~ eqci a b.
Proof.
  rewrite <- eqcib_eqci. destruct (eqcib a b); split; congruence.
Qed.

Lemma eqcib_trans_l (a b c : str) :
  eqcib a b = true -> eqcib a c = eqcib b c.
Proof.
  intros H. apply eqcib_eqci in H. unfold eqcib, eqci in *.
  rewrite H. reflexivity.
Qed.

(** ** Runs and groups *)

Lemma runs_from_groups (l : list str) :
  forall t acc,
    runs_from t (Z.of_nat (S (length acc))) l
    = map (fun g => mkEntry (first_of g) (Z.of_nat (length g)))
        (groups_from t acc l).
Proof.
  induction l as [|s l IH]; intros t acc; cbn [runs_from groups_from].
  - cbn [map first_of hd length]. rewrite length_rev. reflexivity.
  - destruct (eqcib t s).
    + replace (Z.of_nat (S (length acc)) + 1)%Z
        with (Z.of_nat (S (length (s :: acc)))) by (simpl length; lia).
      apply IH.
    + cbn [map first_of hd length]. rewrite length_rev. f_equal.
      apply (IH s []).
Qed.

Lemma runs_groups (l : list str) :
  runs l
  = map (fun g => mkEntry (first_of g) (Z.of_nat (length g))) (groups l).
Proof.
  destruct l as [|s l]; [reflexivity|]. apply (runs_from_groups l s []).
Qed.

Lemma concat_groups_from (l : list str) :
  forall t acc, concat (groups_from t acc l) = (t :: rev acc) ++ l.
Proof.
  induction l as [|s l IH]; intros t acc; simpl groups_from.
  - simpl. rewrite !app_nil_r. reflexivity.
  - destruct (eqcib t s).
    + rewrite IH. simpl. rewrite <- app_assoc. reflexivity.
    + simpl concat. rewrite (IH s []). simpl. reflexivity.
Qed.

Lemma concat_groups (l : list str) : concat (groups l) = l.
Proof.
  destruct l as [|s l]; [reflexivity|]. apply (concat_groups_from l s []).
Qed.

(** ** The sentences of a text are well formed *)

Lemma pairs_cons_first (c : ascii) (body : str) (more : list str) :
  pairs ((c :: body) :: more)
  = match pairs (body :: more) with
    | (b, p) :: r => (c :: b, p) :: r
    | [] => []
    end.
Proof. destruct more; reflexivity. Qed.

Lemma split_pairs_re_split (text : str) :
  split_pairs (pairs (PyStr.re_split text)).
Proof.
  induction text as [|c rest IH].
  - apply sp_last. constructor.
  - simpl PyStr.re_split. destruct (PyStr.is_terminator c) eqn:E.
    + apply sp_cons; [constructor|exact E|exact IH].
    + destruct (PyStr.re_split rest) as [|body more].
      * apply sp_last. constructor; [exact E|constructor].
      * rewrite pairs_cons_first.
        destruct (pairs (body :: more)) as [|[b p] r]; inversion IH; subst.
        -- apply sp_last. constructor; assumption.
        -- apply sp_cons; [constructor|..]; assumption.
Qed.

Lemma blank_term_free (pad : str) : blank pad -> term_free pad.
Proof.
  apply Forall_impl. intros c Hc.
  destruct (PyStr.is_terminator c) eqn:E; [|reflexivity].
  apply PyStrFacts.terminator_not_space in E. congruence.
Qed.

Lemma full_of_blank (pad q : str) : blank pad -> full_of (pad, q) = [].
Proof.
  intros H. unfold full_of; simpl. rewrite PyStrFacts.strip_blank by exact H.
  reflexivity.
Qed.

Lemma full_of_body (pad s q : str) :
  blank pad -> is_body s -> tight (s ++ q) -> full_of (pad ++ s, q) = [s ++ q].
Proof.
  intros Hpad (Hne & Ht & _) Hq. unfold full_of; simpl.
  rewrite PyStrFacts.strip_blank_app by exact Hpad.
  rewrite (PyStrFacts.strip_tight s Ht).
  destruct s as [|c s]; [congruence|].
  rewrite (PyStrFacts.strip_tight _ Hq). reflexivity.
Qed.

Lemma is_body_strip (b : str) :
  term_free b -> PyStr.strip b <> [] -> is_body (PyStr.strip b).
Proof.
  intros Hb Hne. repeat split; try assumption.
  - apply PyStrFacts.tight_strip.
  - apply PyStrFacts.tight_strip.
  - apply PyStrFacts.term_free_strip, Hb.
Qed.

Lemma tight_closed (s : str) (p : ascii) :
  is_body s -> PyStr.is_terminator p = true -> tight (s ++ [p]).
Proof.
  intros (Hne & Ht & _) Hp.
  apply PyStrFacts.tight_snoc; try assumption.
  apply PyStrFacts.terminator_not_space, Hp.
Qed.

Lemma full_of_split (b q : str) :
  PyStr.strip b <> [] -> full_of (b, q) = [PyStr.strip (PyStr.strip b ++ q)].
Proof.
  intros H. unfold full_of; simpl. destruct (PyStr.strip b); congruence.
Qed.

Lemma wf_of_split_pairs (ps : list (str * str)) :
  split_pairs ps -> wf_sentences (flat_map full_of ps).
Proof.
  induction 1 as [b Hb|b p rest Hb Hp Hrest IH]; cbn [flat_map].
  - destruct (PyStr.strip b) as [|c u] eqn:E.
    + unfold full_of; simpl. rewrite E. constructor.
    + rewrite full_of_split by congruence.
      rewrite !app_nil_r, PyStrFacts.strip_strip.
      apply wf_open, is_body_strip; congruence.
  - destruct (PyStr.strip b) as [|c u] eqn:E.
    + unfold full_of at 1; simpl. rewrite E. exact IH.
    + rewrite full_of_split by congruence.
      assert (B : is_body (PyStr.strip b)) by (apply is_body_strip; congruence).
      rewrite (PyStrFacts.strip_tight _ (tight_closed _ _ B Hp)).
      apply wf_cons; assumption.
Qed.

Lemma wf_sentence_list (text : str) : wf_sentences (sentence_list text).
Proof. apply wf_of_split_pairs, split_pairs_re_split. Qed.

Lemma wf_tail (x : str) (l : list str) :
  wf_sentences (x :: l) -> wf_sentences l.
Proof. inversion 1; subst; [constructor|assumption]. Qed.

Lemma wf_head_closed (x y : str) (l : list str) :
  wf_sentences (x :: y :: l) -> closed x.
Proof. inversion 1; subst. exists s, p. auto. Qed.

Lemma wf_repeat_closed (t : str) (n : nat) (rest : list str) :
  closed t -> wf_sentences rest -> wf_sentences (repeat t n ++ rest).
Proof.
  intros (s & p & -> & Hs & Hp) Hrest.
  induction n as [|n IH]; simpl; [exact Hrest|].
  apply wf_cons; assumption.
Qed.

Lemma wf_closed_cons (t : str) (l : list str) :
  closed t -> wf_sentences l -> wf_sentences (t :: l).
Proof. intros H Hl. apply (wf_repeat_closed t 1 l H Hl). Qed.

(** ** The sentences of a joined list *)

Lemma sentence_list_nil : sentence_list [] = [].
Proof. reflexivity. Qed.

Lemma sentence_list_join (fs : list str) :
  wf_sentences fs ->
  forall pad, blank pad -> sentence_list (pad ++ PyStr.join " " fs) = fs.
Proof.
  induction 1 as [|s Hs|s p rest Hs Hp Hrest IH]; intros pad Hpad.
  - simpl. rewrite app_nil_r. unfold sentence_list.
    rewrite PyStrFacts.re_split_term_free by (apply blank_term_free, Hpad).
    simpl. rewrite app_nil_r. apply full_of_blank, Hpad.
  - simpl PyStr.join. unfold sentence_list.
    rewrite PyStrFacts.re_split_term_free.
    + simpl. rewrite app_nil_r.
      rewrite (full_of_body pad s [] Hpad Hs), app_nil_r; [reflexivity|].
      rewrite app_nil_r. apply Hs.
    + apply Forall_app. split; [apply blank_term_free, Hpad|apply Hs].
  - rewrite PyStrFacts.join_cons.
    replace (pad ++ (s ++ [p]) ++
               match rest with [] => [] | _ :: _ => " " ++ PyStr.join " " rest end)
      with ((pad ++ s) ++ p ::
               match rest with [] => [] | _ :: _ => " " ++ PyStr.join " " rest end)
      by (rewrite <- !app_assoc; reflexivity).
    unfold sentence_list. rewrite PyStrFacts.re_split_terminator.
    + cbn [pairs flat_map].
      rewrite (full_of_body pad s [p] Hpad Hs (tight_closed s p Hs Hp)).
      simpl. f_equal. destruct rest as [|r rest].
      * reflexivity.
      * apply (IH (String.list_ascii_of_string " ")).
        repeat constructor.
    + apply Forall_app. split; [apply blank_term_free, Hpad|apply Hs].
    + exact Hp.
Qed.

Lemma tight_wf_join (fs : list str) :
  wf_sentences fs -> tight (PyStr.join " " fs).
Proof.
  intros H. apply PyStrFacts.tight_join.
  induction H as [|s Hs|s p rest Hs Hp Hrest IH]; constructor; auto.
  - split; apply Hs.
  - split.
    + intros E. apply app_eq_nil in E. destruct E; discriminate.
    + apply tight_closed; assumption.
Qed.

Lemma sentence_list_strip_join (fs : list str) :
  wf_sentences fs -> sentence_list (PyStr.strip (PyStr.join " " fs)) = fs.
Proof.
  intros H. rewrite (PyStrFacts.strip_tight _ (tight_wf_join fs H)).
  apply (sentence_list_join fs H []). constructor.
Qed.

(** ** The cleaned list *)

Lemma wf_emit_runs_from (m : Z) (l : list str) :
  forall t c,
    wf_sentences (t :: l) -> closed t \/ c = 1%Z ->
    wf_sentences (flat_map (emit m) (runs_from t c l)).
Proof.
  induction l as [|s l IH]; intros t c Hwf Hc; cbn [runs_from].
  - cbn [flat_map]. unfold emit, PyStr.times; cbn [text count].
    destruct Hc as [Hc| ->].
    + apply wf_repeat_closed; [exact Hc|constructor].
    + rewrite app_nil_r.
      destruct (Z.to_nat (Z.min 1 m)) as [|[|k]] eqn:E; [constructor|exact Hwf|lia].
  - assert (Ht : closed t) by (eapply wf_head_closed; exact Hwf).
    apply wf_tail in Hwf. destruct (eqcib t s).
    + apply IH; [|left; exact Ht].
      apply wf_closed_cons; [exact Ht|]. apply wf_tail in Hwf. exact Hwf.
    + cbn [flat_map]. unfold emit at 1, PyStr.times.
      apply wf_repeat_closed; [exact Ht|].
      apply IH; [exact Hwf|right; reflexivity].
Qed.

Lemma wf_emit_runs (m : Z) (l : list str) :
  wf_sentences l -> wf_sentences (flat_map (emit m) (runs l)).
Proof.
  destruct l as [|t l]; intros H; [constructor|].
  apply wf_emit_runs_from; [exact H|right; reflexivity].
Qed.

Lemma sentence_list_dedupe (text : str) (m : Z) :
  sentence_list (_dedupe_repetitions text m)
  = flat_map (emit m) (scan_sentences text).
Proof.
  rewrite dedupe_unfold, scan_sentences_runs.
  apply sentence_list_strip_join, wf_emit_runs, wf_sentence_list.
Qed.

Lemma runs_from_repeat (t : str) (n : nat) :
  forall c rest,
    runs_from t c (repeat t n ++ rest) = runs_from t (c + Z.of_nat n) rest.
Proof.
  induction n as [|n IH]; intros c rest.
  - simpl. rewrite Z.add_0_r. reflexivity.
  - cbn [repeat app runs_from]. rewrite eqcib_refl, IH. f_equal. lia.
Qed.

Lemma emit_runs_from_head (m : Z) (l : list str) :
  forall s c,
    (1 <= c)%Z -> (1 <= m)%Z ->
    exists rest, flat_map (emit m) (runs_from s c l) = s :: rest.
Proof.
  assert (E : forall s c rest, (1 <= c)%Z -> (1 <= m)%Z ->
              exists rest', emit m (mkEntry s c) ++ rest = s :: rest').
  { intros s c rest Hc Hm. unfold emit, PyStr.times; cbn [text count].
    destruct (Z.to_nat (Z.min c m)) as [|k] eqn:K; [lia|].
    simpl. eauto. }
  induction l as [|x l IH]; intros s c Hc Hm; cbn [runs_from].
  - cbn [flat_map]. apply E; assumption.
  - destruct (eqcib s x).
    + apply IH; lia.
    + cbn [flat_map]. apply E; assumption.
Qed.

Lemma runs_emit_runs_from (m : Z) (l : list str) :
  forall t c,
    (1 <= c)%Z -> (1 <= m)%Z ->
    runs (flat_map (emit m) (runs_from t c l)) = map (cap m) (runs_from t c l).
Proof.
  assert (E : forall t c rest, (1 <= c)%Z -> (1 <= m)%Z ->
              runs (emit m (mkEntry t c) ++ rest)
              = runs_from t (Z.min c m) rest).
  { intros t c rest Hc Hm. unfold emit, PyStr.times; cbn [text count].
    destruct (Z.to_nat (Z.min c m)) as [|k] eqn:K; [lia|].
    cbn [repeat app runs]. rewrite runs_from_repeat. f_equal. lia. }
  induction l as [|x l IH]; intros t c Hc Hm; cbn [runs_from].
  - cbn [flat_map map]. rewrite E by assumption. reflexivity.
  - destruct (eqcib t x) eqn:Etx.
    + apply IH; lia.
    + cbn [flat_map map]. rewrite E by assumption.
      destruct (emit_runs_from_head m l x 1) as [rest Hrest]; [lia|exact Hm|].
      rewrite <- (IH x 1%Z) by lia. rewrite Hrest.
      cbn [runs_from runs]. rewrite Etx. reflexivity.
Qed.

Lemma runs_emit_runs (m : Z) (l : list str) :
  (1 <= m)%Z -> runs (flat_map (emit m) (runs l)) = map (cap m) (runs l).
Proof.
  intros Hm. destruct l as [|t l]; [reflexivity|].
  apply runs_emit_runs_from; [lia|exact Hm].
Qed.

Lemma emit_cap (m : Z) (e : entry) : emit m (cap m e) = emit m e.
Proof.
  unfold emit, cap; cbn [text count]. rewrite Z.min_l by lia. reflexivity.
Qed.

Lemma emit_nonpositive (m : Z) (R : list entry) :
  (m <= 0)%Z -> flat_map (emit m) R = [].
Proof.
  intros Hm. induction R as [|e R IH]; [reflexivity|].
  cbn [flat_map]. rewrite IH. unfold emit, PyStr.times.
  replace (Z.to_nat (Z.min (count e) m)) with 0 by lia. reflexivity.
Qed.

(** The scan of the output finds the runs of the input, each cut to
    [max_repeats]. *)
Lemma scan_dedupe (text : str) (m : Z) :
  (1 <= m)%Z ->
  scan_sentences (_dedupe_repetitions text m)
  = map (cap m) (scan_sentences text).
Proof.
  intros Hm.
  rewrite (scan_sentences_runs (_dedupe_repetitions text m)).
  rewrite sentence_list_dedupe, scan_sentences_runs.
  apply runs_emit_runs, Hm.
Qed.

Lemma dedupe_idempotent (text : str) (m : Z) :
  _dedupe_repetitions (_dedupe_repetitions text m) m
  = _dedupe_repetitions text m.
Proof.
  destruct (Z_le_gt_dec 1 m) as [Hm|Hm].
  - unfold _dedupe_repetitions at 1. rewrite scan_dedupe by exact Hm.
    rewrite collect_cleaned_emit, flat_map_concat_map, map_map.
    rewrite (map_ext _ (emit m) (emit_cap m)), <- flat_map_concat_map.
    unfold _dedupe_repetitions. rewrite collect_cleaned_emit. reflexivity.
  - unfold _dedupe_repetitions. rewrite !collect_cleaned_emit.
    rewrite !emit_nonpositive by lia. reflexivity.
Qed.

(** ** Runs and blocks of equal sentences *)

Lemma prefix_run_block (s : str) (block rest : list str) :
  Forall (eqci s) block -> length block <= prefix_run s (block ++ rest).
Proof.
  induction 1 as [|x block Hx _ IH]; simpl; [lia|].
  apply eqcib_eqci in Hx. rewrite Hx. lia.
Qed.

Lemma runs_from_bound (m : Z) (l : list str) :
  forall t c,
    (1 <= c)%Z ->
    Forall (fun e => (count e <= m)%Z) (runs_from t c l) ->
    (forall s, eqcib t s = true -> (c + Z.of_nat (prefix_run s l) <= m)%Z)
    /\ (forall l1 l2 s, l = l1 ++ l2 -> (Z.of_nat (prefix_run s l2) <= m)%Z).
Proof.
  induction l as [|x l IH]; intros t c Hc1 H; cbn [runs_from] in H.
  - inversion H; subst; cbn [count] in *. split.
    + intros s _. simpl. lia.
    + intros l1 l2 s E. symmetry in E. apply app_eq_nil in E.
      destruct E as [_ ->]. simpl. lia.
  - destruct (eqcib t x) eqn:Etx.
    + destruct (IH t (c + 1)%Z ltac:(lia) H) as [IH1 IH2]. split.
      * intros s Hs. cbn [prefix_run].
        rewrite <- (eqcib_trans_l t s x Hs), Etx.
        specialize (IH1 s Hs). lia.
      * intros [|y l1] l2 s E; simpl in E.
        -- subst l2. cbn [prefix_run]. destruct (eqcib s x) eqn:Esx.
           ++ assert (Hts : eqcib t s = true).
              { apply eqcib_eqci. apply eqcib_eqci in Etx, Esx.
                unfold eqci in *. congruence. }
              specialize (IH1 s Hts). lia.
           ++ specialize (IH1 t (eqcib_refl t)). lia.
        -- injection E as _ E. apply (IH2 l1 l2 s E).
    + inversion H as [|e R Hc HR]; subst; cbn [count] in Hc.
      destruct (IH x 1%Z ltac:(lia) HR) as [IH1 IH2]. split.
      * intros s Hs. cbn [prefix_run].
        rewrite <- (eqcib_trans_l t s x Hs), Etx. simpl. lia.
      * intros [|y l1] l2 s E; simpl in E.
        -- subst l2. cbn [prefix_run]. destruct (eqcib s x) eqn:Esx.
           ++ assert (Hxs : eqcib x s = true).
              { apply eqcib_eqci. apply eqcib_eqci in Esx.
                unfold eqci in *. congruence. }
              specialize (IH1 s Hxs). lia.
           ++ lia.
        -- injection E as _ E. apply (IH2 l1 l2 s E).
Qed.

Lemma runs_block_bound (m : Z) (l l1 block l2 : list str) (s : str) :
  (1 <= m)%Z ->
  Forall (fun e => (count e <= m)%Z) (runs l) ->
  l = l1 ++ block ++ l2 -> Forall (eqci s) block ->
  (Z.of_nat (length block) <= m)%Z.
Proof.
  intros Hm H E Hb. pose proof (prefix_run_block s block l2 Hb) as Hp.
  destruct l as [|t l].
  - symmetry in E. apply app_eq_nil in E. destruct E as [_ E].
    apply app_eq_nil in E. destruct E as [-> _]. simpl. lia.
  - cbn [runs] in H.
    destruct (runs_from_bound m l t 1%Z ltac:(lia) H) as [B1 B2].
    destruct l1 as [|y l1]; simpl in E.
    + destruct block as [|b block]; [simpl; lia|].
      simpl in E. injection E as -> E.
      cbn [app prefix_run] in Hp.
      assert (Hst : eqcib s b = true)
        by (apply eqcib_eqci; inversion Hb; assumption).
      assert (Hts : eqcib b s = true).
      { apply eqcib_eqci. apply eqcib_eqci in Hst. unfold eqci in *. congruence. }
      rewrite <- E, Hst in Hp. specialize (B1 s Hts). lia.
    + injection E as _ E. specialize (B2 l1 (block ++ l2) s E). lia.
Qed.

Lemma counts_cap (m : Z) (R : list entry) :
  Forall (fun e => (count e <= m)%Z) (map (cap m) R).
Proof.
  apply Forall_map, Forall_forall. intros e _. cbn [cap count]. lia.
Qed.

(** ** Groups are the maximal runs *)

Lemma groups_from_runs (l : list str) :
  forall t acc,
    forallb (eqcib t) acc = true ->
    forallb is_run (groups_from t acc l) = true.
Proof.
  assert (B : forall t acc, forallb (eqcib t) acc = true ->
              is_run (t :: rev acc) = true).
  { intros t acc H. cbn [is_run forallb]. rewrite eqcib_refl. simpl.
    apply forallb_forall. intros x Hx. apply in_rev in Hx.
    revert x Hx. apply forallb_forall, H. }
  induction l as [|s l IH]; intros t acc Hacc; cbn [groups_from].
  - cbn [forallb]. rewrite (B t acc Hacc). reflexivity.
  - destruct (eqcib t s) eqn:E.
    + apply IH. cbn [forallb]. rewrite E, Hacc. reflexivity.
    + cbn [forallb]. rewrite (B t acc Hacc). apply (IH s []). reflexivity.
Qed.

Lemma groups_from_head (l : list str) :
  forall t acc, exists g G, groups_from t acc l = (t :: g) :: G.
Proof.
  induction l as [|s l IH]; intros t acc; cbn [groups_from].
  - eauto.
  - destruct (eqcib t s); [apply IH|eauto].
Qed.

Lemma groups_from_maximal (l : list str) :
  forall t acc, adjacent_differ (groups_from t acc l) = true.
Proof.
  induction l as [|s l IH]; intros t acc; cbn [groups_from].
  - reflexivity.
  - destruct (eqcib t s) eqn:Ets; [apply IH|].
    cbn [adjacent_differ]. rewrite (IH s []).
    destruct (groups_from_head l s []) as (g & G & ->).
    cbn [first_of hd]. rewrite Ets. reflexivity.
Qed.

Lemma groups_runs (l : list str) : forallb is_run (groups l) = true.
Proof.
  destruct l as [|s l]; [reflexivity|]. apply groups_from_runs. reflexivity.
Qed.

Lemma groups_maximal (l : list str) : adjacent_differ (groups l) = true.
Proof.
  destruct l as [|s l]; [reflexivity|]. apply groups_from_maximal.
Qed.

Lemma emit_copies (m : Z) (G : list (list str)) :
  flat_map (emit m)
    (map (fun g => mkEntry (first_of g) (Z.of_nat (length g))) G)
  = flat_map (copies m) G.
Proof.
  induction G as [|g G IH]; [reflexivity|].
  cbn [map flat_map]. rewrite IH. reflexivity.
Qed.

(** ** Texts without terminator, and blank sentences *)

Lemma sentence_list_term_free (txt : str) :
  term_free txt ->
  sentence_list txt
  = match PyStr.strip txt with [] => [] | _ :: _ => [PyStr.strip txt] end.
Proof.
  intros H. unfold sentence_list.
  rewrite PyStrFacts.re_split_term_free by exact H.
  cbn [pairs flat_map]. rewrite app_nil_r. unfold full_of; cbn [fst snd].
  destruct (PyStr.strip txt) as [|c u] eqn:E; [reflexivity|].
  rewrite app_nil_r, <- E, PyStrFacts.strip_strip. reflexivity.
Qed.

Lemma dedupe_term_free (txt : str) (m : Z) :
  term_free txt -> (1 <= m)%Z -> _dedupe_repetitions txt m = PyStr.strip txt.
Proof.
  intros H Hm. rewrite dedupe_unfold, sentence_list_term_free by exact H.
  destruct (PyStr.strip txt) as [|c u] eqn:E; [reflexivity|].
  cbn [runs runs_from flat_map]. unfold emit, PyStr.times; cbn [text count].
  rewrite Z.min_l by exact Hm. cbn [Z.to_nat Pos.to_nat Pos.iter_op repeat app].
  cbn [PyStr.join]. rewrite <- E. apply PyStrFacts.strip_strip.
Qed.

Lemma wf_not_blank (l : list str) :
  wf_sentences l -> Forall (fun f => PyStr.strip f <> []) l.
Proof.
  induction 1 as [|s Hs|s p rest Hs Hp Hrest IH].
  - constructor.
  - constructor; [|constructor].
    destruct Hs as (Hne & Ht & _). rewrite (PyStrFacts.strip_tight s Ht).
    exact Hne.
  - constructor; [|exact IH].
    rewrite (PyStrFacts.strip_tight _ (tight_closed s p Hs Hp)).
    intros E. apply app_eq_nil in E. destruct E; discriminate.
Qed.

Lemma runs_from_texts (P : str -> Prop) (l : list str) :
  forall t c,
    P t -> Forall P l -> Forall (fun e => P (text e)) (runs_from t c l).
Proof.
  induction l as [|s l IH]; intros t c Ht Hl; cbn [runs_from].
  - constructor; [exact Ht|constructor].
  - inversion Hl; subst. destruct (eqcib t s).
    + apply IH; assumption.
    + constructor; [exact Ht|apply IH; assumption].
Qed.

Lemma runs_texts (P : str -> Prop) (l : list str) :
  Forall P l -> Forall (fun e => P (text e)) (runs l).
Proof.
  destruct l as [|t l]; intros H; [constructor|].
  inversion H; subst. apply runs_from_texts; assumption.
Qed.

(** ** The claims on the repetition collapser *)



(** C2, as the code has it.  For the input "Hi. hi. HI. Bye." with
    [max_repeats = 2] the collapser returns "Hi. Hi. Bye.": the run of
    three is cut to two copies of its first occurrence, in the casing of
    that occurrence. *)
Theorem dedupe_hi_first_casing :
  _dedupe_repetitions "Hi. hi. HI. Bye." 2 = "Hi. Hi. Bye."
  /\ scan_sentences "Hi. hi. HI. Bye." = [mkEntry "Hi." 3; mkEntry "Bye." 1].
Proof. split; vm_compute; reflexivity. Qed.

(** C2, as the spec words it, fails: the second retained sentence is not
    the second occurrence "hi." of the input. *)
Lemma dedupe_hi_not_as_encountered :
  _dedupe_repetitions "Hi. hi. HI. Bye." 2 <> "Hi. hi. Bye.".
Proof. vm_compute. discriminate. Qed.

(** C4.  The collapser is idempotent: for every text and every
    [max_repeats >= 1], applying it to its own output gives that output. *)
Theorem dedupe_idempotent_from_one (txt : str) (max_repeats : Z) :
  (1 <= max_repeats)%Z ->
  _dedupe_repetitions (_dedupe_repetitions txt max_repeats) max_repeats
  = _dedupe_repetitions txt max_repeats.
Proof. intros _. apply dedupe_idempotent. Qed.

Lemma dedupe_idempotent_from_one_witness :
  (1 <= 2)%Z
  /\ _dedupe_repetitions (_dedupe_repetitions "No. no. NO. Yes? yes" 2) 2
     = _dedupe_repetitions "No. no. NO. Yes? yes" 2.
Proof.
  split; [lia|].
  apply (dedupe_idempotent_from_one "No. no. NO. Yes? yes" 2). lia.
Defined.

(** C6.  For the input "Hello world. Hello world. Hello world. Goodbye."
    with [max_repeats = 2] the collapser returns
    "Hello world. Hello world. Goodbye.". *)
Theorem dedupe_hello_world :
  _dedupe_repetitions "Hello world. Hello world. Hello world. Goodbye." 2
  = "Hello world. Hello world. Goodbye.".
Proof. vm_compute. reflexivity. Qed.

(** ** Blank pieces between terminators *)

Lemma pairs_after_terminator (a : str) (q : ascii) :
  PyStr.is_terminator q = true ->
  exists bp ps,
    forall rest,
      pairs (PyStr.re_split (a ++ q :: rest))
      = bp :: ps ++ pairs (PyStr.re_split rest).
Proof.
  intros Hq. induction a as [|c a (bp & ps & IH)].
  - exists ([], [q]), []. intros rest. simpl. rewrite Hq. reflexivity.
  - destruct (PyStr.is_terminator c) eqn:E.
    + exists ([], [c]), (bp :: ps). intros rest.
      simpl. rewrite E. cbn [pairs]. rewrite IH. reflexivity.
    + exists (c :: fst bp, snd bp), ps. intros rest.
      specialize (IH rest). cbn [app PyStr.re_split]. rewrite E.
      destruct (PyStr.re_split (a ++ q :: rest)) as [|body more];
        [discriminate|].
      rewrite pairs_cons_first, IH. destruct bp. reflexivity.
Qed.

Lemma pairs_blank_then_terminator (pad : str) (p : ascii) (rest : str) :
  blank pad -> PyStr.is_terminator p = true ->
  pairs (PyStr.re_split (pad ++ p :: rest))
  = (pad, [p]) :: pairs (PyStr.re_split rest).
Proof.
  intros Hpad Hp.
  rewrite PyStrFacts.re_split_terminator
    by (try apply blank_term_free; assumption).
  reflexivity.
Qed.

Lemma sentence_list_drops_blank_first (pad : str) (p : ascii) (rest : str) :
  blank pad -> PyStr.is_terminator p = true ->
  sentence_list (pad ++ p :: rest) = sentence_list rest.
Proof.
  intros Hpad Hp. unfold sentence_list.
  rewrite pairs_blank_then_terminator by assumption.
  cbn [flat_map]. rewrite full_of_blank by exact Hpad. reflexivity.
Qed.

Lemma sentence_list_drops_blank_inner (a : str) (q : ascii) (pad : str)
    (p : ascii) (rest : str) :
  PyStr.is_terminator q = true -> blank pad -> PyStr.is_terminator p = true ->
  sentence_list (a ++ q :: pad ++ p :: rest) = sentence_list (a ++ q :: rest).
Proof.
  intros Hq Hpad Hp. unfold sentence_list.
  destruct (pairs_after_terminator a q Hq) as (bp & ps & E).
  rewrite !E. cbn [flat_map]. rewrite !flat_map_app.
  fold (sentence_list (pad ++ p :: rest)). fold (sentence_list rest).
  rewrite sentence_list_drops_blank_first by assumption. reflexivity.
Qed.

Lemma terminated_pairs_join (fs : list str) :
  wf_sentences fs ->
  forall pad,
    blank pad ->
    Forall terminated_has_body
      (pairs (PyStr.re_split (pad ++ PyStr.join " " fs))).
Proof.
  induction 1 as [|s Hs|s p rest Hs Hp Hrest IH]; intros pad Hpad.
  - simpl. rewrite app_nil_r.
    rewrite PyStrFacts.re_split_term_free by (apply blank_term_free, Hpad).
    repeat constructor. intros H. contradiction H. reflexivity.
  - simpl PyStr.join. rewrite PyStrFacts.re_split_term_free.
    + repeat constructor. intros H. contradiction H. reflexivity.
    + apply Forall_app. split; [apply blank_term_free, Hpad|apply Hs].
  - rewrite PyStrFacts.join_cons.
    replace (pad ++ (s ++ [p]) ++
               match rest with [] => [] | _ :: _ => " " ++ PyStr.join " " rest end)
      with ((pad ++ s) ++ p ::
               match rest with [] => [] | _ :: _ => " " ++ PyStr.join " " rest end)
      by (rewrite <- !app_assoc; reflexivity).
    rewrite PyStrFacts.re_split_terminator;
      [|apply Forall_app; split; [apply blank_term_free, Hpad|apply Hs]
       |exact Hp].
    cbn [pairs]. constructor.
    + intros _. cbn [fst].
      rewrite PyStrFacts.strip_blank_app by exact Hpad.
      destruct Hs as (Hne & Ht & _).
      rewrite (PyStrFacts.strip_tight s Ht). exact Hne.
    + destruct rest as [|r rest].
      * repeat constructor. intros H. contradiction H. reflexivity.
      * apply (IH (String.list_ascii_of_string " ")). repeat constructor.
Qed.

Lemma terminated_pairs_dedupe (txt : str) (m : Z) :
  Forall terminated_has_body
    (pairs (PyStr.re_split (_dedupe_repetitions txt m))).
Proof.
  rewrite dedupe_unfold.
  pose proof (wf_emit_runs m _ (wf_sentence_list txt)) as Hwf.
  rewrite (PyStrFacts.strip_tight _ (tight_wf_join _ Hwf)).
  apply (terminated_pairs_join _ Hwf []). constructor.
Qed.

Lemma blank_pair_not_terminated (pad : str) (p : ascii) :
  blank pad -> ~ terminated_has_body (pad, [p]).
Proof.
  intros Hpad H. apply H; [discriminate|].
  apply PyStrFacts.strip_blank, Hpad.
Qed.

Lemma wf_shapes (l : list str) : wf_sentences l -> Forall sentence_shape l.
Proof.
  induction 1 as [|s Hs|s p rest Hs Hp Hrest IH].
  - constructor.
  - constructor; [|constructor]. exists s, []. rewrite app_nil_r. auto.
  - constructor; [|exact IH]. exists s, [p]. eauto 6.
Qed.

(** C8.  The collapser returns the empty string for the empty text; a text
    without terminator is one sentence, and with [max_repeats >= 1] it is
    returned trimmed and otherwise unchanged; and whitespace between
    terminators makes no sentence: every entry of the scan is a body that
    is not blank, followed by nothing or by its terminator; a terminator of
    the text that only whitespace separates from the terminator before it,
    or from the start, is dropped with that whitespace, so the output is
    what it would be without them; and the output itself never begins with
    whitespace and a terminator and never holds two terminators with only
    whitespace between them. *)
Theorem dedupe_edge_cases :
  (forall m, _dedupe_repetitions [] m = [])
  /\ (forall txt m,
        term_free txt -> (1 <= m)%Z ->
        scan_sentences txt
        = match PyStr.strip txt with
          | [] => []
          | _ :: _ => [mkEntry (PyStr.strip txt) 1]
          end
        /\ _dedupe_repetitions txt m = PyStr.strip txt)
  /\ (forall txt m,
        Forall (fun e => PyStr.strip (text e) <> []) (scan_sentences txt)
        /\ Forall (fun f => PyStr.strip f <> [])
             (sentence_list (_dedupe_repetitions txt m)))
  /\ (forall txt,
        Forall
          (fun e =>
             exists s q,
               text e = s ++ q
               /\ (s <> [] /\ PyStr.strip s = s /\ term_free s)
               /\ (q = [] \/ exists p, q = [p] /\ PyStr.is_terminator p = true))
          (scan_sentences txt))
  /\ (forall pad p rest m,
        blank pad -> PyStr.is_terminator p = true ->
        _dedupe_repetitions (pad ++ p :: rest) m = _dedupe_repetitions rest m)
  /\ (forall a q pad p rest m,
        PyStr.is_terminator q = true -> blank pad ->
        PyStr.is_terminator p = true ->
        _dedupe_repetitions (a ++ q :: pad ++ p :: rest) m
        = _dedupe_repetitions (a ++ q :: rest) m)
  /\ (forall txt m pad p rest,
        blank pad -> PyStr.is_terminator p = true ->
        _dedupe_repetitions txt m <> pad ++ p :: rest)
  /\ (forall txt m a q pad p rest,
        PyStr.is_terminator q = true -> blank pad ->
        PyStr.is_terminator p = true ->
        _dedupe_repetitions txt m <> a ++ q :: pad ++ p :: rest).
Proof.
  split; [|split; [|split; [|split; [|split; [|split; [|split]]]]]].
  - intros m. rewrite dedupe_unfold. reflexivity.
  - intros txt m H Hm. split; [|apply dedupe_term_free; assumption].
    rewrite scan_sentences_runs, sentence_list_term_free by exact H.
    destruct (PyStr.strip txt); reflexivity.
  - intros txt m. split.
    + rewrite scan_sentences_runs.
      apply (runs_texts (fun f => PyStr.strip f <> [])).
      apply wf_not_blank, wf_sentence_list.
    + apply wf_not_blank, wf_sentence_list.
  - intros txt. rewrite scan_sentences_runs.
    pose proof (runs_texts sentence_shape _
                  (wf_shapes _ (wf_sentence_list txt))) as H.
    eapply Forall_impl; [|exact H].
    intros e (s & q & E & (Hne & Ht & Hf) & Hq).
    exists s, q. repeat split; try assumption.
    apply PyStrFacts.strip_tight, Ht.
  - intros pad p rest m Hpad Hp.
    rewrite !dedupe_unfold, sentence_list_drops_blank_first by assumption.
    reflexivity.
  - intros a q pad p rest m Hq Hpad Hp.
    rewrite !dedupe_unfold, sentence_list_drops_blank_inner by assumption.
    reflexivity.
  - intros txt m pad p rest Hpad Hp E.
    pose proof (terminated_pairs_dedupe txt m) as H.
    rewrite E, pairs_blank_then_terminator in H by assumption.
    inversion H as [|x l Hx _]; subst.
    apply (blank_pair_not_terminated pad p Hpad Hx).
  - intros txt m a q pad p rest Hq Hpad Hp E.
    pose proof (terminated_pairs_dedupe txt m) as H.
    destruct (pairs_after_terminator a q Hq) as (bp & ps & Ea).
    rewrite E, Ea, pairs_blank_then_terminator in H by assumption.
    inversion H as [|x l _ Hl]; subst.
    apply Forall_app in Hl. destruct Hl as [_ Hl].
    inversion Hl as [|y l' Hy _]; subst.
    apply (blank_pair_not_terminated pad p Hpad Hy).
Qed.

Lemma dedupe_edge_cases_witness :
  (term_free "  so it goes  " /\ (1 <= 2)%Z
   /\ _dedupe_repetitions "  so it goes  " 2 = PyStr.strip "  so it goes  ")
  /\ (PyStr.is_terminator "." = true /\ blank "  "
      /\ PyStr.is_terminator "!" = true
      /\ _dedupe_repetitions ("Wait" ++ "."%char :: "  " ++ "!"%char :: " Go.") 2
         = _dedupe_repetitions ("Wait" ++ "."%char :: " Go.") 2).
Proof.
  assert (H : term_free "  so it goes  ") by (repeat constructor).
  assert (Hb : blank "  ") by (repeat constructor).
  destruct dedupe_edge_cases as (_ & H2 & _ & _ & _ & H6 & _).
  destruct (H2 "  so it goes  " 2%Z H ltac:(lia)) as [_ E].
  split.
  - split; [exact H|]. split; [lia|exact E].
  - split; [reflexivity|]. split; [exact Hb|]. split; [reflexivity|].
    apply (H6 (String.list_ascii_of_string "Wait") "."%char
              (String.list_ascii_of_string "  ") "!"%char
              (String.list_ascii_of_string " Go.") 2%Z
              eq_refl Hb eq_refl).
Defined.

(** C10.  The sentences of a text fall into maximal runs of sentences
    that are equal case-insensitively ([groups]); the scan keeps, for each
    run, its first sentence and its length; and the output is made, run
    after run, of [min(count, max_repeats)] copies of that first sentence,
    character for character, whatever the casing of the later members of
    the run. *)
Theorem dedupe_copies_first_occurrence (txt : str) (max_repeats : Z) :
  concat (groups (sentence_list txt)) = sentence_list txt
  /\ forallb is_run (groups (sentence_list txt)) = true
  /\ adjacent_differ (groups (sentence_list txt)) = true
  /\ scan_sentences txt
     = map (fun g => mkEntry (first_of g) (Z.of_nat (length g)))
         (groups (sentence_list txt))
  /\ collect_cleaned (scan_sentences txt) max_repeats
     = flat_map (copies max_repeats) (groups (sentence_list txt))
  /\ _dedupe_repetitions txt max_repeats
     = PyStr.strip
         (PyStr.join " "
            (flat_map (copies max_repeats) (groups (sentence_list txt))))
  /\ sentence_list (_dedupe_repetitions txt max_repeats)
     = flat_map (copies max_repeats) (groups (sentence_list txt)).
Proof.
  assert (Hs : scan_sentences txt
               = map (fun g => mkEntry (first_of g) (Z.of_nat (length g)))
                   (groups (sentence_list txt)))
    by (rewrite scan_sentences_runs; apply runs_groups).
  assert (Hc : collect_cleaned (scan_sentences txt) max_repeats
               = flat_map (copies max_repeats) (groups (sentence_list txt)))
    by (rewrite collect_cleaned_emit, Hs; apply emit_copies).
  repeat split.
  - apply concat_groups.
  - apply groups_runs.
  - apply groups_maximal.
  - exact Hs.
  - exact Hc.
  - unfold _dedupe_repetitions. rewrite Hc. reflexivity.
  - rewrite sentence_list_dedupe, <- collect_cleaned_emit. exact Hc.
Qed.

(** ** [json.dumps] writes JSON on one line *)

Module JsonFacts.
Import Json.

Lemma chars_app (a b : str) : chars a -> chars b -> chars (a ++ b).
Proof.
  induction 1; intros Hb; simpl; [exact Hb|..].
  - apply chars_plain; auto.
  - apply chars_short; auto.
  - apply chars_u; auto.
Qed.

Lemma chars_escape_char (c : ascii) : chars (escape_char c).
Proof.
  destruct c as [[] [] [] [] [] [] [] []]; vm_compute;
    repeat first
      [ apply chars_nil
      | apply chars_u; [reflexivity|reflexivity|reflexivity|reflexivity|]
      | apply chars_short; [reflexivity|]
      | apply chars_plain; [reflexivity|] ].
Qed.

Lemma printable_escape_char (c : ascii) :
  forallb printable (escape_char c) = true.
Proof. destruct c as [[] [] [] [] [] [] [] []]; vm_compute; reflexivity. Qed.

Lemma chars_escaped (s : str) : chars (flat_map escape_char s).
Proof.
  induction s as [|c s IH]; simpl; [constructor|].
  apply chars_app; [apply chars_escape_char|exact IH].
Qed.

Lemma value_encode_string (s : str) : value (encode_string s).
Proof. apply value_string, chars_escaped. Qed.

Lemma printable_encode_string (s : str) :
  forallb printable (encode_string s) = true.
Proof.
  unfold encode_string. cbn [forallb]. rewrite forallb_app.
  replace (forallb printable (flat_map escape_char s)) with true.
  - reflexivity.
  - symmetry. induction s as [|c s IH]; simpl; [reflexivity|].
    rewrite forallb_app, printable_escape_char, IH. reflexivity.
Qed.

Lemma member_item (pad : str) (item : str * str) :
  ws pad -> member (pad ++ item_text item).
Proof.
  intros Hpad. unfold item_text.
  pose proof (member_intro pad (flat_map escape_char (fst item)) []
                [" "%char] (encode_string (snd item)) []
                Hpad (chars_escaped _) (Forall_nil _)
                ltac:(repeat constructor)
                (value_encode_string _) (Forall_nil _)) as H.
  rewrite app_nil_r in H. exact H.
Qed.

Lemma members_items (d : dict) :
  forall pad item,
    ws pad -> members (pad ++ PyStr.join ", " (map item_text (item :: d))).
Proof.
  induction d as [|next d IH]; intros pad item Hpad.
  - simpl. apply members_one, member_item, Hpad.
  - cbn [map]. rewrite PyStrFacts.join_cons. cbn [map] in IH.
    replace (pad ++ item_text item ++
               String.list_ascii_of_string ", " ++
               PyStr.join ", " (item_text next :: map item_text d))
      with ((pad ++ item_text item) ++ ","%char ::
              [" "%char] ++ PyStr.join ", " (item_text next :: map item_text d))
      by (rewrite <- app_assoc; reflexivity).
    apply members_more; [apply member_item, Hpad|].
    apply IH. repeat constructor.
Qed.

Lemma dumps_items (d : dict) :
  dumps d = "{"%char :: PyStr.join ", " (map item_text d) ++ ["}"%char].
Proof. reflexivity. Qed.

Lemma value_dumps (d : dict) : value (dumps d).
Proof.
  rewrite dumps_items. destruct d as [|item d].
  - apply (value_empty_object []). constructor.
  - apply value_object. apply (members_items d [] item). constructor.
Qed.

Lemma printable_join (l : list str) :
  Forall (fun x => forallb printable x = true) l ->
  forallb printable (PyStr.join ", " l) = true.
Proof.
  induction 1 as [|x l Hx Hl IH]; [reflexivity|].
  rewrite PyStrFacts.join_cons, forallb_app, Hx. destruct l as [|y l].
  - reflexivity.
  - rewrite forallb_app, IH. reflexivity.
Qed.

Lemma printable_dumps (d : dict) : forallb printable (dumps d) = true.
Proof.
  rewrite dumps_items. cbn [forallb]. rewrite forallb_app.
  rewrite printable_join; [reflexivity|].
  apply Forall_map, Forall_forall. intros item _. unfold item_text.
  rewrite !forallb_app, !printable_encode_string. reflexivity.
Qed.

End JsonFacts.

(** ** The invoker and the command line *)

Lemma transcribe_audio_cases (whisper : Engine)
    (audio_path model_size lang : str) (w : World) :
  transcribe_audio whisper audio_path model_size lang w
  = match load_model whisper model_size with
    | Raises e =>
        (Returns (error_result e),
         mkWorld DevNull (sys_dunder_stderr w) (stdout w))
    | Returns mdl =>
        match transcribe whisper mdl audio_path (decoding_options lang) with
        | Raises e =>
            (Returns (error_result e),
             mkWorld DevNull (sys_dunder_stderr w) (stdout w))
        | Returns result =>
            (Returns (success_result (result_text result)),
             mkWorld (sys_dunder_stderr w) (sys_dunder_stderr w) (stdout w))
        end
    end.
Proof.
  unfold transcribe_audio, try_except, bind, call, set_stderr,
    get_dunder_stderr, ret; simpl.
  destruct (load_model whisper model_size) as [mdl|e]; [|reflexivity].
  destruct (transcribe whisper mdl audio_path (decoding_options lang));
    reflexivity.
Qed.

Lemma transcribe_audio_returns (whisper : Engine)
    (audio_path model_size lang : str) (w : World) :
  exists d,
    fst (transcribe_audio whisper audio_path model_size lang w) = Returns d
    /\ stdout (snd (transcribe_audio whisper audio_path model_size lang w))
       = stdout w
    /\ ((exists heard, d = success_result heard) \/ (exists e, d = error_result e)).
Proof.
  rewrite transcribe_audio_cases.
  destruct (load_model whisper model_size) as [mdl|e].
  - destruct (transcribe whisper mdl audio_path (decoding_options lang))
      as [result|e].
    + eexists; repeat split. left; eauto.
    + eexists; repeat split. right; eauto.
  - eexists; repeat split. right; eauto.
Qed.

(** Where [sys.stderr] points when [transcribe_audio] is over. *)
Lemma stderr_after_success (whisper : Engine)
    (audio_path model_size lang : str) (w : World) mdl result :
  load_model whisper model_size = Returns mdl ->
  transcribe whisper mdl audio_path (decoding_options lang) = Returns result ->
  sys_stderr (snd (transcribe_audio whisper audio_path model_size lang w))
  = sys_dunder_stderr w.
Proof. intros H1 H2. rewrite transcribe_audio_cases, H1, H2. reflexivity. Qed.

Lemma stderr_after_load_failure (whisper : Engine)
    (audio_path model_size lang : str) (w : World) e :
  load_model whisper model_size = Raises e ->
  sys_stderr (snd (transcribe_audio whisper audio_path model_size lang w))
  = DevNull.
Proof. intros H1. rewrite transcribe_audio_cases, H1. reflexivity. Qed.

Lemma stderr_after_transcribe_failure (whisper : Engine)
    (audio_path model_size lang : str) (w : World) mdl e :
  load_model whisper model_size = Returns mdl ->
  transcribe whisper mdl audio_path (decoding_options lang) = Raises e ->
  sys_stderr (snd (transcribe_audio whisper audio_path model_size lang w))
  = DevNull.
Proof. intros H1 H2. rewrite transcribe_audio_cases, H1, H2. reflexivity. Qed.

(** C3, on the code.  When the engine raises, [transcribe_audio] returns
    with [sys.stderr] still bound to the file opened on [os.devnull]: the
    assignment that restores it stands in the [try] body after the engine
    call and the handler has none.  A fresh process whose engine cannot
    load its model shows it; when the engine returns instead, [sys.stderr]
    is bound to [sys.__stderr__] again. *)
Theorem transcribe_audio_stderr_after_exception :
  sys_stderr fresh_world = Console
  /\ fst (transcribe_audio engine_without_weights "a.wav" "tiny" "en" fresh_world)
     = Returns [kv "text" ""; kv "status" "error"; kv "error" "model not found"]
  /\ sys_stderr
       (snd (transcribe_audio engine_without_weights "a.wav" "tiny" "en"
               fresh_world))
     = DevNull
  /\ sys_stderr
       (snd (transcribe_audio engine_bad_audio "a.wav" "tiny" "en" fresh_world))
     = DevNull
  /\ sys_stderr
       (snd (transcribe_audio (engine_hearing "Hi.") "a.wav" "tiny" "en"
               fresh_world))
     = Console.
Proof. repeat split. Qed.

(** C5.  An exception raised by the engine, while it loads the model or
    while it transcribes, does not leave [transcribe_audio]: the call
    returns [{'text': '', 'status': 'error', 'error': str(e)}].  In every
    case the call returns a dictionary that has a text and whose status is
    'success' or 'error'. *)
Theorem transcribe_audio_never_raises (whisper : Engine)
    (audio_path model_size lang : str) (w : World) :
  (forall e,
      load_model whisper model_size = Raises e ->
      fst (transcribe_audio whisper audio_path model_size lang w)
      = Returns [kv "text" ""; kv "status" "error"; kv "error" e])
  /\ (forall mdl e,
        load_model whisper model_size = Returns mdl ->
        transcribe whisper mdl audio_path (decoding_options lang) = Raises e ->
        fst (transcribe_audio whisper audio_path model_size lang w)
        = Returns [kv "text" ""; kv "status" "error"; kv "error" e])
  /\ (exists d,
        fst (transcribe_audio whisper audio_path model_size lang w) = Returns d
        /\ dict_get d "text" <> None
        /\ (dict_get d "status" = Some ("success" : str)
            \/ dict_get d "status" = Some ("error" : str))).
Proof.
  rewrite transcribe_audio_cases. split; [|split].
  - intros e ->. reflexivity.
  - intros mdl e -> ->. reflexivity.
  - destruct (load_model whisper model_size) as [mdl|e].
    + destruct (transcribe whisper mdl audio_path (decoding_options lang))
        as [result|e].
      * eexists. split; [reflexivity|]. split; [discriminate|left; reflexivity].
      * eexists. split; [reflexivity|]. split; [discriminate|right; reflexivity].
    + eexists. split; [reflexivity|]. split; [discriminate|right; reflexivity].
Qed.

Lemma transcribe_audio_never_raises_witness :
  load_model engine_without_weights "tiny" = Raises "model not found"
  /\ fst (transcribe_audio engine_without_weights "a.wav" "tiny" "en" fresh_world)
     = Returns [kv "text" ""; kv "status" "error"; kv "error" "model not found"]
  /\ load_model engine_bad_audio "tiny" = Returns tt
  /\ transcribe engine_bad_audio tt "a.wav" (decoding_options "en")
     = Raises "corrupted audio"
  /\ fst (transcribe_audio engine_bad_audio "a.wav" "tiny" "en" fresh_world)
     = Returns [kv "text" ""; kv "status" "error"; kv "error" "corrupted audio"].
Proof.
  destruct (transcribe_audio_never_raises engine_without_weights
              "a.wav" "tiny" "en" fresh_world) as (H1 & _ & _).
  destruct (transcribe_audio_never_raises engine_bad_audio
              "a.wav" "tiny" "en" fresh_world) as (_ & H2 & _).
  split; [reflexivity|]. split; [apply H1; reflexivity|].
  split; [reflexivity|]. split; [reflexivity|].
  apply (H2 tt); reflexivity.
Defined.

(** C7.  The process ends with status 1, after it printed an object whose
    only key is 'error', exactly when no audio path was given (message
    "No audio file provided") or the given path does not exist (message
    "File not found: " followed by the path as given).  In every other
    case, also when the engine fails, it ends with status 0 after it
    printed an object with the keys 'text' and 'status'. *)
Theorem main_exit_status (whisper : Engine) (env : Env) (argv : list str)
    (w : World) :
  (length argv < 2 ->
     fst (main whisper env argv w) = 1%Z
     /\ stdout (snd (main whisper env argv w))
        = stdout w ++ Json.dumps [kv "error" "No audio file provided"]
                   ++ [Json.newline])
  /\ (2 <= length argv -> os_path_exists env (nth 1 argv []) = false ->
       fst (main whisper env argv w) = 1%Z
       /\ stdout (snd (main whisper env argv w))
          = stdout w
              ++ Json.dumps [kv "error" ("File not found: " ++ nth 1 argv [])]
              ++ [Json.newline])
  /\ (2 <= length argv -> os_path_exists env (nth 1 argv []) = true ->
       fst (main whisper env argv w) = 0%Z
       /\ exists d,
            stdout (snd (main whisper env argv w))
            = stdout w ++ Json.dumps d ++ [Json.newline]
            /\ (keys d = [("text" : str); ("status" : str)]
                \/ keys d = [("text" : str); ("status" : str); ("error" : str)]))
  /\ (fst (main whisper env argv w) = 1%Z
      <-> length argv < 2 \/ os_path_exists env (nth 1 argv []) = false)
  /\ (fst (main whisper env argv w) = 0%Z
      <-> 2 <= length argv /\ os_path_exists env (nth 1 argv []) = true).
Proof.
  unfold main.
  destruct (length argv <? 2) eqn:Hlen.
  - apply Nat.ltb_lt in Hlen. cbn [fst snd print stdout].
    split; [|split; [|split; [|split]]].
    + intros _. split; reflexivity.
    + intros H; lia.
    + intros H; lia.
    + split; [intros _; left; exact Hlen|reflexivity].
    + split; [discriminate|intros [H _]; lia].
  - apply Nat.ltb_ge in Hlen.
    destruct (os_path_exists env (nth 1 argv [])) eqn:Hex; cbn [negb].
    + destruct (transcribe_audio_returns whisper (nth 1 argv [])
                  (if 2 <? length argv then nth 2 argv []
                   else getenv env "WHISPER_MODEL" "base.en")
                  (if 3 <? length argv then nth 3 argv []
                   else getenv env "WHISPER_LANGUAGE" "en") w)
        as (d & Hd & Hout & Hshape).
      destruct (transcribe_audio whisper _ _ _ w) as [[d'|e] w'];
        cbn [fst snd] in *; [|discriminate].
      injection Hd as ->. cbn [print stdout]. rewrite Hout.
      split; [|split; [|split; [|split]]].
      * intros H; lia.
      * intros _ H; discriminate.
      * intros _ _. split; [reflexivity|]. exists d. split; [reflexivity|].
        destruct Hshape as [[heard ->]|[e ->]]; [left|right]; reflexivity.
      * split; [discriminate|intros [H|H]; [lia|discriminate]].
      * split; [intros _; split; [exact Hlen|reflexivity]|reflexivity].
    + cbn [fst snd print stdout].
      split; [|split; [|split; [|split]]].
      * intros H; lia.
      * intros _ _. split; reflexivity.
      * intros _ H; discriminate.
      * split; [intros _; right; reflexivity|reflexivity].
      * split; [discriminate|intros [_ H]; discriminate].
Qed.

Lemma main_exit_status_witness :
  (length [("whisper_service.py" : str)] < 2
   /\ fst (main engine_bad_audio (env_with []) [("whisper_service.py" : str)]
             fresh_world) = 1%Z)
  /\ (os_path_exists (env_with []) "missing.wav" = false
      /\ stdout (snd (main engine_bad_audio (env_with [])
                        [("whisper_service.py" : str); ("missing.wav" : str)]
                        fresh_world))
         = Json.dumps [kv "error" "File not found: missing.wav"]
             ++ [Json.newline])
  /\ (os_path_exists (env_with [("a.wav" : str)]) "a.wav" = true
      /\ fst (main engine_bad_audio (env_with [("a.wav" : str)])
                [("whisper_service.py" : str); ("a.wav" : str)] fresh_world)
         = 0%Z).
Proof.
  destruct (main_exit_status engine_bad_audio (env_with [])
              [("whisper_service.py" : str)] fresh_world) as (H1 & _).
  destruct (main_exit_status engine_bad_audio (env_with [])
              [("whisper_service.py" : str); ("missing.wav" : str)]
              fresh_world) as (_ & H2 & _).
  destruct (main_exit_status engine_bad_audio (env_with [("a.wav" : str)])
              [("whisper_service.py" : str); ("a.wav" : str)]
              fresh_world) as (_ & _ & H3 & _).
  split; [|split].
  - split; [simpl; lia|]. apply H1. simpl; lia.
  - split; [reflexivity|]. apply H2; [simpl; lia|reflexivity].
  - split; [reflexivity|]. apply H3; [simpl; lia|reflexivity].
Defined.

Lemma main_prints_dumps (whisper : Engine) (env : Env) (argv : list str)
    (w : World) :
  exists d,
    stdout (snd (main whisper env argv w))
    = stdout w ++ Json.dumps d ++ [Json.newline].
Proof.
  unfold main. destruct (length argv <? 2).
  - eexists; reflexivity.
  - destruct (os_path_exists env (nth 1 argv [])); cbn [negb].
    + destruct (transcribe_audio_returns whisper (nth 1 argv [])
                  (if 2 <? length argv then nth 2 argv []
                   else getenv env "WHISPER_MODEL" "base.en")
                  (if 3 <? length argv then nth 3 argv []
                   else getenv env "WHISPER_LANGUAGE" "en") w)
        as (d & Hd & Hout & _).
      destruct (transcribe_audio whisper _ _ _ w) as [[d'|e] w'];
        cbn [fst snd] in *; [|discriminate].
      exists d'. cbn [print stdout]. rewrite Hout. reflexivity.
    + eexists; reflexivity.
Qed.

(** C9.  For every argument list, every environment and every engine, the
    process appends to standard output exactly one line: a JSON object
    made of printable ASCII characters, followed by one line break. *)
Theorem main_prints_one_json_line (whisper : Engine) (env : Env)
    (argv : list str) (w : World) :
  exists doc,
    stdout (snd (main whisper env argv w)) = stdout w ++ doc ++ [Json.newline]
    /\ forallb Json.printable doc = true
    /\ ~ In Json.newline doc
    /\ Json.value doc.
Proof.
  destruct (main_prints_dumps whisper env argv w) as [d Hd].
  exists (Json.dumps d). split; [exact Hd|].
  pose proof (JsonFacts.printable_dumps d) as Hp.
  split; [exact Hp|]. split; [|apply JsonFacts.value_dumps].
  intros Hin. rewrite forallb_forall in Hp. apply Hp in Hin. discriminate.
Qed.

(** * Further properties *)

(** ** The collapser: edge cases and invariants of the scan *)

Lemma dedupe_nonpositive_helper (txt : str) (m : Z) :
  (m <= 0)%Z -> _dedupe_repetitions txt m = [].
Proof.
  intros Hm. rewrite dedupe_unfold, emit_nonpositive by exact Hm. reflexivity.
Qed.

(** With [max_repeats <= 0] nothing is kept: the output is empty for
    every text. *)
Theorem dedupe_nonpositive_empty (txt : str) (max_repeats : Z) :
  (max_repeats <= 0)%Z -> _dedupe_repetitions txt max_repeats = [].
Proof. apply dedupe_nonpositive_helper. Qed.

Lemma dedupe_nonpositive_empty_witness :
  (0 <= 0)%Z /\ _dedupe_repetitions "Stop. Stop. Go." 0 = [].
Proof.
  split; [lia|]. apply (dedupe_nonpositive_empty "Stop. Stop. Go." 0). lia.
Defined.

Lemma runs_from_counts (l : list str) :
  forall t c,
    (1 <= c)%Z ->
    Forall (fun e => (1 <= count e)%Z) (runs_from t c l)
    /\ sum_counts (runs_from t c l) = (c + Z.of_nat (length l))%Z.
Proof.
  induction l as [|s l IH]; intros t c Hc; cbn [runs_from].
  - split; [repeat constructor; exact Hc|]. simpl. lia.
  - destruct (eqcib t s).
    + destruct (IH t (c + 1)%Z ltac:(lia)) as [H1 H2]. split; [exact H1|].
      rewrite H2. cbn [length]. lia.
    + destruct (IH s 1%Z ltac:(lia)) as [H1 H2]. split.
      * constructor; [exact Hc|exact H1].
      * cbn [sum_counts fold_right count]. fold (sum_counts (runs_from s 1 l)).
        rewrite H2. cbn [length]. lia.
Qed.

(** Every entry of the scan counts at least one sentence, and the counts
    add up to the number of sentences of the text: the scan loses no
    sentence and counts none twice. *)
Theorem scan_counts_every_sentence (txt : str) :
  Forall (fun e => (1 <= count e)%Z) (scan_sentences txt)
  /\ sum_counts (scan_sentences txt)
     = Z.of_nat (length (sentence_list txt)).
Proof.
  rewrite scan_sentences_runs. destruct (sentence_list txt) as [|t l].
  - split; [constructor|reflexivity].
  - cbn [runs]. destruct (runs_from_counts l t 1%Z ltac:(lia)) as [H1 H2].
    split; [exact H1|]. rewrite H2. cbn [length]. lia.
Qed.

Lemma runs_from_texts_in (l : list str) :
  forall t c, Forall (fun e => In (text e) (t :: l)) (runs_from t c l).
Proof.
  induction l as [|s l IH]; intros t c; cbn [runs_from].
  - repeat constructor.
  - destruct (eqcib t s).
    + eapply Forall_impl; [|apply (IH t (c + 1)%Z)].
      intros e [H|H]; [left; exact H|right; right; exact H].
    + constructor; [left; reflexivity|].
      eapply Forall_impl; [|apply (IH s 1%Z)].
      intros e H. right. exact H.
Qed.

Lemma length_emit_le (m : Z) (e : entry) :
  (1 <= count e)%Z -> (Z.of_nat (length (emit m e)) <= count e)%Z.
Proof.
  intros H. unfold emit, PyStr.times. rewrite repeat_length. lia.
Qed.

Lemma length_emits_le (m : Z) (R : list entry) :
  Forall (fun e => (1 <= count e)%Z) R ->
  (Z.of_nat (length (flat_map (emit m) R)) <= sum_counts R)%Z.
Proof.
  induction 1 as [|e R He _ IH]; [simpl; lia|].
  cbn [flat_map sum_counts fold_right]. fold (sum_counts R).
  rewrite length_app. pose proof (length_emit_le m e He). lia.
Qed.

(** The collapser invents nothing: every sentence of its output is a
    sentence of the text, and the output has no more sentences than the
    text. *)
Theorem dedupe_only_keeps (txt : str) (max_repeats : Z) :
  incl (sentence_list (_dedupe_repetitions txt max_repeats))
       (sentence_list txt)
  /\ length (sentence_list (_dedupe_repetitions txt max_repeats))
     <= length (sentence_list txt).
Proof.
  rewrite sentence_list_dedupe. split.
  - intros f Hf. apply in_flat_map in Hf. destruct Hf as (e & He & Hf).
    unfold emit, PyStr.times in Hf. apply repeat_spec in Hf. subst f.
    rewrite scan_sentences_runs in He.
    destruct (sentence_list txt) as [|t l]; [destruct He|].
    cbn [runs] in He.
    pose proof (runs_from_texts_in l t 1%Z) as H.
    rewrite Forall_forall in H. apply H, He.
  - destruct (scan_counts_every_sentence txt) as [H1 H2].
    pose proof (length_emits_le max_repeats _ H1). lia.
Qed.

(** The output is in normal form: it has no whitespace at either end and
    it is its own sentences joined by single spaces. *)
Theorem dedupe_normal_form (txt : str) (max_repeats : Z) :
  PyStr.strip (_dedupe_repetitions txt max_repeats)
  = _dedupe_repetitions txt max_repeats
  /\ _dedupe_repetitions txt max_repeats
     = PyStr.join " " (sentence_list (_dedupe_repetitions txt max_repeats)).
Proof.
  split.
  - unfold _dedupe_repetitions. apply PyStrFacts.strip_strip.
  - rewrite sentence_list_dedupe, scan_sentences_runs, dedupe_unfold.
    apply PyStrFacts.strip_tight, tight_wf_join, wf_emit_runs, wf_sentence_list.
Qed.

Lemma copies_whole_run (m : Z) (g : list str) :
  (Z.of_nat (length g) <= m)%Z -> Forall (eq (first_of g)) g ->
  copies m g = g.
Proof.
  intros Hlen Hall. unfold copies. rewrite Z.min_l by exact Hlen.
  rewrite Nat2Z.id. symmetry. apply Forall_eq_repeat, Hall.
Qed.

(** When no run is longer than [max_repeats] and the members of each run
    are the same string, nothing is dropped or changed: the output is the
    sentences of the text joined by single spaces.  This covers every text
    without two consecutive equal sentences, for [max_repeats >= 1]. *)
Theorem dedupe_short_runs_unchanged (txt : str) (max_repeats : Z) :
  Forall (fun g => (Z.of_nat (length g) <= max_repeats)%Z
                   /\ Forall (eq (first_of g)) g)
         (groups (sentence_list txt)) ->
  _dedupe_repetitions txt max_repeats = PyStr.join " " (sentence_list txt).
Proof.
  intros H.
  assert (E : flat_map (copies max_repeats) (groups (sentence_list txt))
              = sentence_list txt).
  { rewrite <- (concat_groups (sentence_list txt)) at 2.
    induction H as [|g G [Hlen Hall] _ IH]; [reflexivity|].
    cbn [flat_map concat]. rewrite IH, (copies_whole_run _ _ Hlen Hall).
    reflexivity. }
  rewrite dedupe_unfold, runs_groups, emit_copies, E.
  apply PyStrFacts.strip_tight, tight_wf_join, wf_sentence_list.
Qed.

Lemma dedupe_short_runs_unchanged_witness :
  Forall (fun g => (Z.of_nat (length g) <= 2)%Z /\ Forall (eq (first_of g)) g)
         (groups (sentence_list " One.  Two!Two!   three "))
  /\ _dedupe_repetitions " One.  Two!Two!   three " 2
     = PyStr.join " " (sentence_list " One.  Two!Two!   three ").
Proof.
  assert (H : Forall (fun g => (Z.of_nat (length g) <= 2)%Z
                               /\ Forall (eq (first_of g)) g)
                     (groups (sentence_list " One.  Two!Two!   three "))).
  { vm_compute groups. repeat constructor; simpl; lia. }
  split; [exact H|].
  apply (dedupe_short_runs_unchanged " One.  Two!Two!   three " 2 H).
Defined.

Lemma emit_cap_min (m m' : Z) (e : entry) :
  emit m' (cap m e) = emit (Z.min m m') e.
Proof.
  unfold emit, cap; cbn [text count]. rewrite Z.min_assoc. reflexivity.
Qed.

(** Collapsing twice, with [max_repeats = m] and then [m'], is collapsing
    once with the smaller of the two, for all integers [m] and [m']. *)
Theorem dedupe_twice_is_min (txt : str) (m m' : Z) :
  _dedupe_repetitions (_dedupe_repetitions txt m) m'
  = _dedupe_repetitions txt (Z.min m m').
Proof.
  destruct (Z_le_gt_dec 1 m) as [Hm|Hm].
  - unfold _dedupe_repetitions at 1. rewrite scan_dedupe by exact Hm.
    rewrite collect_cleaned_emit, flat_map_concat_map, map_map.
    rewrite (map_ext _ (emit (Z.min m m')) (emit_cap_min m m')).
    rewrite <- flat_map_concat_map.
    unfold _dedupe_repetitions. rewrite collect_cleaned_emit. reflexivity.
  - rewrite (dedupe_nonpositive_helper txt m) by lia.
    rewrite (dedupe_nonpositive_helper txt (Z.min m m')) by lia.
    rewrite dedupe_unfold. reflexivity.
Qed.

(** ** The collapser and whitespace around the text *)

Lemma rstrip_blank_app (s pad : str) :
  blank pad -> PyStr.rstrip (s ++ pad) = PyStr.rstrip s.
Proof.
  intros H. unfold PyStr.rstrip. rewrite rev_app_distr.
  rewrite PyStrFacts.lstrip_blank by (apply Forall_rev, H). reflexivity.
Qed.

Lemma strip_app_blank (s pad : str) :
  blank pad -> PyStr.strip (s ++ pad) = PyStr.strip s.
Proof.
  intros H. induction s as [|c s IH].
  - simpl. rewrite PyStrFacts.strip_blank by exact H. reflexivity.
  - unfold PyStr.strip in *. simpl. destruct (PyStr.isspace c); [exact IH|].
    apply (rstrip_blank_app (c :: s) pad H).
Qed.

Lemma sentence_list_terminator (b : str) (p : ascii) (rest : str) :
  term_free b -> PyStr.is_terminator p = true ->
  sentence_list (b ++ p :: rest) = full_of (b, [p]) ++ sentence_list rest.
Proof.
  intros Hb Hp. unfold sentence_list.
  rewrite PyStrFacts.re_split_terminator by assumption. reflexivity.
Qed.

Lemma sentence_list_body (b : str) :
  term_free b -> sentence_list b = full_of (b, []).
Proof.
  intros Hb. unfold sentence_list.
  rewrite PyStrFacts.re_split_term_free by exact Hb.
  simpl. apply app_nil_r.
Qed.

Lemma full_of_pad_left (pad b q : str) :
  blank pad -> full_of (pad ++ b, q) = full_of (b, q).
Proof.
  intros H. unfold full_of; cbn [fst snd].
  rewrite PyStrFacts.strip_blank_app by exact H. reflexivity.
Qed.

Lemma full_of_pad_right (pad b q : str) :
  blank pad -> full_of (b ++ pad, q) = full_of (b, q).
Proof.
  intros H. unfold full_of; cbn [fst snd].
  rewrite strip_app_blank by exact H. reflexivity.
Qed.

Lemma term_free_snoc (pre : str) (c : ascii) :
  term_free pre -> PyStr.is_terminator c = false -> term_free (pre ++ [c]).
Proof.
  intros H Hc. apply Forall_app. split; [exact H|repeat constructor; exact Hc].
Qed.

Lemma sentence_list_pad_left (pad : str) :
  blank pad ->
  forall txt pre,
    term_free pre ->
    sentence_list (pad ++ pre ++ txt) = sentence_list (pre ++ txt).
Proof.
  intros Hpad. pose proof (blank_term_free pad Hpad) as Hfree.
  induction txt as [|c txt IH]; intros pre Hpre.
  - rewrite !app_nil_r.
    rewrite !sentence_list_body
      by (try apply Forall_app; try split; assumption).
    apply full_of_pad_left, Hpad.
  - destruct (PyStr.is_terminator c) eqn:E.
    + rewrite app_assoc.
      rewrite !sentence_list_terminator
        by (try apply Forall_app; try split; assumption).
      rewrite full_of_pad_left by exact Hpad. reflexivity.
    + replace (pad ++ pre ++ c :: txt) with (pad ++ (pre ++ [c]) ++ txt)
        by (rewrite <- !app_assoc; reflexivity).
      replace (pre ++ c :: txt) with ((pre ++ [c]) ++ txt)
        by (rewrite <- app_assoc; reflexivity).
      apply IH, term_free_snoc; assumption.
Qed.

Lemma sentence_list_pad_right (pad : str) :
  blank pad ->
  forall txt pre,
    term_free pre ->
    sentence_list (pre ++ txt ++ pad) = sentence_list (pre ++ txt).
Proof.
  intros Hpad. pose proof (blank_term_free pad Hpad) as Hfree.
  induction txt as [|c txt IH]; intros pre Hpre.
  - simpl. rewrite app_nil_r.
    rewrite !sentence_list_body
      by (try apply Forall_app; try split; assumption).
    apply full_of_pad_right, Hpad.
  - destruct (PyStr.is_terminator c) eqn:E.
    + cbn [app].
      rewrite !sentence_list_terminator by assumption.
      f_equal. apply (IH []). constructor.
    + replace (pre ++ (c :: txt) ++ pad) with ((pre ++ [c]) ++ txt ++ pad)
        by (rewrite <- !app_assoc; reflexivity).
      replace (pre ++ c :: txt) with ((pre ++ [c]) ++ txt)
        by (rewrite <- app_assoc; reflexivity).
      apply IH, term_free_snoc; assumption.
Qed.

Lemma lstrip_decompose (s : str) :
  exists pad, blank pad /\ s = pad ++ PyStr.lstrip s.
Proof.
  induction s as [|c s (pad & Hpad & IH)].
  - exists []. split; [constructor|reflexivity].
  - simpl. destruct (PyStr.isspace c) eqn:E.
    + exists (c :: pad). split; [constructor; assumption|].
      simpl. f_equal. exact IH.
    + exists []. split; [constructor|reflexivity].
Qed.

Lemma rstrip_decompose (s : str) :
  exists pad, blank pad /\ s = PyStr.rstrip s ++ pad.
Proof.
  destruct (lstrip_decompose (rev s)) as (pad & Hpad & E).
  exists (rev pad). split; [apply Forall_rev, Hpad|].
  unfold PyStr.rstrip. rewrite <- rev_app_distr, <- E. symmetry.
  apply rev_involutive.
Qed.

Lemma dedupe_same_sentences (a b : str) (m : Z) :
  sentence_list a = sentence_list b ->
  _dedupe_repetitions a m = _dedupe_repetitions b m.
Proof. intros E. rewrite !dedupe_unfold, E. reflexivity. Qed.

Lemma sentence_list_outer_blank (t before after : str) :
  blank before -> blank after ->
  sentence_list (before ++ t ++ after) = sentence_list t.
Proof.
  intros Hb Ha.
  pose proof (sentence_list_pad_left before Hb (t ++ after) []
                (Forall_nil _)) as E1.
  pose proof (sentence_list_pad_right after Ha t [] (Forall_nil _)) as E2.
  cbn [app] in E1, E2. rewrite E1. exact E2.
Qed.

Lemma sentence_list_strip (txt : str) :
  sentence_list (PyStr.strip txt) = sentence_list txt.
Proof.
  destruct (lstrip_decompose txt) as (before & Hb & E1).
  destruct (rstrip_decompose (PyStr.lstrip txt)) as (after & Ha & E2).
  fold (PyStr.strip txt) in E2.
  rewrite E1 at 2. rewrite E2. symmetry.
  apply sentence_list_outer_blank; assumption.
Qed.

(** Whitespace before and after the text does not count: the collapser
    gives the same output with or without it.  In particular the call
    [_dedupe_repetitions(result['text'].strip(), ...)] of the invoker gives
    what [_dedupe_repetitions(result['text'], ...)] would give. *)
Theorem dedupe_ignores_outer_whitespace (txt : str) (max_repeats : Z) :
  (forall before after,
      blank before -> blank after ->
      _dedupe_repetitions (before ++ txt ++ after) max_repeats
      = _dedupe_repetitions txt max_repeats)
  /\ _dedupe_repetitions (PyStr.strip txt) max_repeats
     = _dedupe_repetitions txt max_repeats.
Proof.
  split.
  - intros before after Hb Ha.
    apply dedupe_same_sentences, sentence_list_outer_blank; assumption.
  - apply dedupe_same_sentences, sentence_list_strip.
Qed.

Lemma dedupe_ignores_outer_whitespace_witness :
  blank "  " /\ blank " "
  /\ _dedupe_repetitions ("  " ++ "Oh. oh. OH." ++ " ") 2
     = _dedupe_repetitions "Oh. oh. OH." 2.
Proof.
  assert (H1 : blank "  ") by (repeat constructor).
  assert (H2 : blank " ") by (repeat constructor).
  destruct (dedupe_ignores_outer_whitespace "Oh. oh. OH." 2) as [H _].
  split; [exact H1|]. split; [exact H2|].
  apply (H (String.list_ascii_of_string "  ") (String.list_ascii_of_string " ")
           H1 H2).
Defined.

(** ** The collapser and lower case *)

Lemma isspace_lower_char (c : ascii) :
  PyStr.isspace (PyStr.lower_char c) = PyStr.isspace c.
Proof. destruct c as [[] [] [] [] [] [] [] []]; reflexivity. Qed.

Lemma is_terminator_lower_char (c : ascii) :
  PyStr.is_terminator (PyStr.lower_char c) = PyStr.is_terminator c.
Proof. destruct c as [[] [] [] [] [] [] [] []]; reflexivity. Qed.

Lemma lower_char_twice (c : ascii) :
  PyStr.lower_char (PyStr.lower_char c) = PyStr.lower_char c.
Proof. destruct c as [[] [] [] [] [] [] [] []]; reflexivity. Qed.

Lemma lower_twice (s : str) : PyStr.lower (PyStr.lower s) = PyStr.lower s.
Proof.
  unfold PyStr.lower. rewrite map_map. apply map_ext, lower_char_twice.
Qed.

Lemma lstrip_lower (s : str) :
  PyStr.lstrip (PyStr.lower s) = PyStr.lower (PyStr.lstrip s).
Proof.
  induction s as [|c s IH]; [reflexivity|]. simpl.
  rewrite isspace_lower_char. destruct (PyStr.isspace c); [exact IH|reflexivity].
Qed.

Lemma strip_lower (s : str) :
  PyStr.strip (PyStr.lower s) = PyStr.lower (PyStr.strip s).
Proof.
  unfold PyStr.strip, PyStr.rstrip. rewrite lstrip_lower.
  unfold PyStr.lower at 1. rewrite <- map_rev. fold (PyStr.lower (rev (PyStr.lstrip s))).
  rewrite lstrip_lower. unfold PyStr.lower. rewrite map_rev. reflexivity.
Qed.

Lemma re_split_lower (s : str) :
  PyStr.re_split (PyStr.lower s) = map PyStr.lower (PyStr.re_split s).
Proof.
  induction s as [|c s IH]; [reflexivity|].
  cbn [PyStr.lower map PyStr.re_split]. fold (PyStr.lower s).
  rewrite is_terminator_lower_char, IH.
  destruct (PyStr.is_terminator c); [reflexivity|].
  destruct (PyStr.re_split s); reflexivity.
Qed.

Lemma pairs_lower (parts : list str) :
  pairs (map PyStr.lower parts)
  = map (fun bp => (PyStr.lower (fst bp), PyStr.lower (snd bp))) (pairs parts).
Proof.
  induction parts as [|b|b p rest IH] using pairs_ind2; [reflexivity..|].
  cbn [map pairs fst snd]. rewrite IH. reflexivity.
Qed.

Lemma full_of_lower (bp : str * str) :
  full_of (PyStr.lower (fst bp), PyStr.lower (snd bp))
  = map PyStr.lower (full_of bp).
Proof.
  unfold full_of; cbn [fst snd]. rewrite strip_lower.
  destruct (PyStr.strip (fst bp)) as [|c u]; [reflexivity|].
  cbn [PyStr.lower map]. f_equal. fold (PyStr.lower u).
  change (PyStr.lower_char c :: PyStr.lower u) with (PyStr.lower (c :: u)).
  unfold PyStr.lower at 1 2. rewrite <- map_app. apply strip_lower.
Qed.

Lemma sentence_list_lower (txt : str) :
  sentence_list (PyStr.lower txt) = map PyStr.lower (sentence_list txt).
Proof.
  unfold sentence_list. rewrite re_split_lower, pairs_lower.
  induction (pairs (PyStr.re_split txt)) as [|bp ps IH]; [reflexivity|].
  cbn [map flat_map]. rewrite map_app, IH, full_of_lower. reflexivity.
Qed.

Lemma eqcib_lower (a b : str) :
  eqcib (PyStr.lower a) (PyStr.lower b) = eqcib a b.
Proof. unfold eqcib. rewrite !lower_twice. reflexivity. Qed.

Lemma runs_from_lower (l : list str) :
  forall t c,
    runs_from (PyStr.lower t) c (map PyStr.lower l)
    = map lower_entry (runs_from t c l).
Proof.
  induction l as [|s l IH]; intros t c; cbn [map runs_from]; [reflexivity|].
  rewrite eqcib_lower. destruct (eqcib t s); [apply IH|].
  cbn [map]. rewrite IH. reflexivity.
Qed.

Lemma runs_lower (l : list str) :
  runs (map PyStr.lower l) = map lower_entry (runs l).
Proof. destruct l as [|t l]; [reflexivity|]. apply runs_from_lower. Qed.

Lemma emit_lower (m : Z) (R : list entry) :
  flat_map (emit m) (map lower_entry R)
  = map PyStr.lower (flat_map (emit m) R).
Proof.
  induction R as [|e R IH]; [reflexivity|].
  cbn [map flat_map]. rewrite map_app, IH. f_equal.
  unfold emit, PyStr.times, lower_entry; cbn [text count].
  symmetry. apply map_repeat.
Qed.

Lemma join_lower (l : list str) :
  PyStr.join " " (map PyStr.lower l) = PyStr.lower (PyStr.join " " l).
Proof.
  induction l as [|x l IH]; [reflexivity|].
  cbn [map]. rewrite !PyStrFacts.join_cons. destruct l as [|y l].
  - cbn [map]. rewrite !app_nil_r. reflexivity.
  - cbn [map] in *. rewrite IH. unfold PyStr.lower. rewrite !map_app.
    reflexivity.
Qed.

(** Lower case and the collapser commute: collapsing the text in lower
    case gives the collapsed text in lower case.  The comparison of
    sentences ignores case and nothing else of the scan looks at it. *)
Theorem dedupe_lower_commute (txt : str) (max_repeats : Z) :
  _dedupe_repetitions (PyStr.lower txt) max_repeats
  = PyStr.lower (_dedupe_repetitions txt max_repeats).
Proof.
  rewrite !dedupe_unfold, sentence_list_lower, runs_lower, emit_lower.
  rewrite join_lower. apply strip_lower.
Qed.

(** ** The invoker: what it returns *)

(** The status tells what the engine did: it is 'success' exactly when the
    model was loaded and the transcription returned; the key 'error' is
    present exactly when the status is 'error', and then the text is
    empty. *)
Theorem transcribe_audio_status (whisper : Engine)
    (audio_path model_size lang : str) (w : World) :
  exists d,
    fst (transcribe_audio whisper audio_path model_size lang w) = Returns d
    /\ (dict_get d "status" = Some ("success" : str)
        <-> exists mdl result,
              load_model whisper model_size = Returns mdl
              /\ transcribe whisper mdl audio_path (decoding_options lang)
                 = Returns result)
    /\ (dict_get d "error" <> None
        <-> dict_get d "status" = Some ("error" : str))
    /\ (dict_get d "status" = Some ("error" : str)
        -> dict_get d "text" = Some []).
Proof.
  rewrite transcribe_audio_cases.
  destruct (load_model whisper model_size) as [mdl|e] eqn:Hl.
  - destruct (transcribe whisper mdl audio_path (decoding_options lang))
      as [result|e] eqn:Ht.
    + eexists. split; [reflexivity|]. repeat split.
      * intros _. exists mdl, result. rewrite Ht. auto.
      * intros H. exfalso. apply H. reflexivity.
      * intros H. discriminate.
      * intros H. discriminate.
    + eexists. split; [reflexivity|]. repeat split.
      * intros H. discriminate.
      * intros (mdl' & result & Hm & Hr). injection Hm as <-.
        rewrite Ht in Hr. discriminate.
      * intros _. discriminate.
  - eexists. split; [reflexivity|]. repeat split.
    + intros H. discriminate.
    + intros (mdl' & result & Hm & _). discriminate.
    + intros _. discriminate.
Qed.

(** When the engine returns, the text handed back is collapsed with two
    repeats: it is the collapsed raw text of the engine, the collapser
    leaves it as it is, it has no whitespace at its ends, and it never
    holds three consecutive sentences that are equal case-insensitively. *)
Theorem transcribe_audio_text_collapsed (whisper : Engine)
    (audio_path model_size lang : str) (w : World) mdl result :
  load_model whisper model_size = Returns mdl ->
  transcribe whisper mdl audio_path (decoding_options lang) = Returns result ->
  exists t,
    fst (transcribe_audio whisper audio_path model_size lang w)
    = Returns [kv "text" t; kv "status" "success"]
    /\ t = _dedupe_repetitions (result_text result) 2
    /\ _dedupe_repetitions t 2 = t
    /\ PyStr.strip t = t
    /\ (forall l1 block l2 s,
          sentence_list t = l1 ++ block ++ l2 -> Forall (eqci s) block ->
          length block <= 2).
Proof.
  intros Hl Ht. rewrite transcribe_audio_cases, Hl, Ht.
  exists (_dedupe_repetitions (PyStr.strip (result_text result)) 2).
  split; [reflexivity|]. split; [|split; [|split]].
  - apply dedupe_same_sentences, sentence_list_strip.
  - apply dedupe_idempotent.
  - unfold _dedupe_repetitions. apply PyStrFacts.strip_strip.
  - intros l1 block l2 s E Hb.
    assert (H : (Z.of_nat (length block) <= 2)%Z); [|lia].
    apply (runs_block_bound 2 _ l1 block l2 s ltac:(lia)) with (2 := E);
      [|exact Hb].
    rewrite <- scan_sentences_runs, scan_dedupe by lia. apply counts_cap.
Qed.

Lemma transcribe_audio_text_collapsed_witness :
  load_model (engine_hearing " So. so. SO. So what? ") "tiny" = Returns tt
  /\ transcribe (engine_hearing " So. so. SO. So what? ") tt "a.wav"
       (decoding_options "en")
     = Returns (mkRawResult " So. so. SO. So what? ")
  /\ exists t,
       fst (transcribe_audio (engine_hearing " So. so. SO. So what? ")
              "a.wav" "tiny" "en" fresh_world)
       = Returns [kv "text" t; kv "status" "success"]
       /\ _dedupe_repetitions t 2 = t.
Proof.
  split; [reflexivity|]. split; [reflexivity|].
  destruct (transcribe_audio_text_collapsed
              (engine_hearing " So. so. SO. So what? ")
              "a.wav" "tiny" "en" fresh_world tt
              (mkRawResult " So. so. SO. So what? ") eq_refl eq_refl)
    as (t & H1 & _ & H2 & _).
  exists t. split; assumption.
Defined.

(** ** The command line: order of the checks and of the defaults *)

(** When the audio path is missing or names no file, the exit status, the
    printed line and the state the process ends in are the same whatever
    the engine is and whatever values the environment variables have, and
    [sys.stderr] is left as it was. *)
Theorem main_checks_before_engine (whisper whisper' : Engine)
    (env env' : Env) (argv : list str) (w : World) :
  length argv < 2 \/ os_path_exists env (nth 1 argv []) = false ->
  (forall path, os_path_exists env' path = os_path_exists env path) ->
  main whisper env argv w = main whisper' env' argv w
  /\ sys_stderr (snd (main whisper env argv w)) = sys_stderr w.
Proof.
  intros H Hex. unfold main. rewrite Hex.
  destruct (length argv <? 2) eqn:Hlen; [split; reflexivity|].
  apply Nat.ltb_ge in Hlen. destruct H as [H|H]; [lia|].
  rewrite H. split; reflexivity.
Qed.

Lemma main_checks_before_engine_witness :
  (length [("whisper_service.py" : str); ("gone.wav" : str)] < 2
   \/ os_path_exists (env_with []) (nth 1 [("whisper_service.py" : str);
                                           ("gone.wav" : str)] []) = false)
  /\ main engine_bad_audio (env_with [])
          [("whisper_service.py" : str); ("gone.wav" : str)] fresh_world
     = main (engine_hearing "Hi.") (env_with [])
          [("whisper_service.py" : str); ("gone.wav" : str)] fresh_world.
Proof.
  assert (H : length [("whisper_service.py" : str); ("gone.wav" : str)] < 2
              \/ os_path_exists (env_with [])
                   (nth 1 [("whisper_service.py" : str); ("gone.wav" : str)] [])
                 = false) by (right; reflexivity).
  split; [exact H|].
  apply (main_checks_before_engine engine_bad_audio (engine_hearing "Hi.")
           (env_with []) (env_with [])
           [("whisper_service.py" : str); ("gone.wav" : str)] fresh_world H).
  reflexivity.
Defined.

Lemma nth_firstn_lt {A} (l : list A) (i n : nat) (d : A) :
  i < n -> nth i (firstn n l) d = nth i l d.
Proof.
  revert i n. induction l as [|x l IH]; intros i n H.
  - rewrite firstn_nil. reflexivity.
  - destruct n as [|n]; [lia|]. destruct i as [|i]; [reflexivity|].
    simpl. apply IH. lia.
Qed.

(** The command line comes first, then the environment, then the literal
    defaults: arguments after the third are ignored; with a model size and
    a language on the command line the environment variables are not
    consulted; and leaving both out is the same as passing
    [WHISPER_MODEL] (or "base.en") and [WHISPER_LANGUAGE] (or "en"). *)
Theorem main_argument_precedence (whisper : Engine) (env : Env)
    (argv : list str) (w : World) :
  main whisper env argv w = main whisper env (firstn 4 argv) w
  /\ (4 <= length argv ->
      forall env',
        (forall path, os_path_exists env' path = os_path_exists env path) ->
        main whisper env' argv w = main whisper env argv w)
  /\ (forall prog path,
        main whisper env [prog; path] w
        = main whisper env
            [prog; path; getenv env "WHISPER_MODEL" "base.en";
             getenv env "WHISPER_LANGUAGE" "en"] w)
  /\ (forall prog path size,
        main whisper env [prog; path; size] w
        = main whisper env
            [prog; path; size; getenv env "WHISPER_LANGUAGE" "en"] w).
Proof.
  split; [|split; [|split]].
  - unfold main. rewrite length_firstn.
    destruct (Nat.le_gt_cases 4 (length argv)) as [H|H].
    + rewrite Nat.min_l by exact H.
      rewrite !nth_firstn_lt by lia.
      replace (length argv <? 2) with false
        by (symmetry; apply Nat.ltb_ge; lia).
      replace (2 <? length argv) with true
        by (symmetry; apply Nat.ltb_lt; lia).
      replace (3 <? length argv) with true
        by (symmetry; apply Nat.ltb_lt; lia).
      reflexivity.
    + rewrite Nat.min_r by lia. rewrite firstn_all2 by lia. reflexivity.
  - intros H env' Hex. unfold main. rewrite Hex.
    replace (2 <? length argv) with true by (symmetry; apply Nat.ltb_lt; lia).
    replace (3 <? length argv) with true by (symmetry; apply Nat.ltb_lt; lia).
    reflexivity.
  - intros prog path. reflexivity.
  - intros prog path size. reflexivity.
Qed.

Lemma main_argument_precedence_witness :
  4 <= length [("whisper_service.py" : str); ("a.wav" : str);
               ("small" : str); ("fr" : str); ("more" : str)]
  /\ main engine_bad_audio
          (mkEnv (fun _ => Some (String.list_ascii_of_string "large"))
                 (fun _ => true))
          [("whisper_service.py" : str); ("a.wav" : str);
           ("small" : str); ("fr" : str); ("more" : str)] fresh_world
     = main engine_bad_audio (mkEnv (fun _ => None) (fun _ => true))
          [("whisper_service.py" : str); ("a.wav" : str);
           ("small" : str); ("fr" : str); ("more" : str)] fresh_world.
Proof.
  split; [simpl; lia|].
  destruct (main_argument_precedence engine_bad_audio
              (mkEnv (fun _ => None) (fun _ => true))
              [("whisper_service.py" : str); ("a.wav" : str);
               ("small" : str); ("fr" : str); ("more" : str)] fresh_world)
    as (_ & H & _).
  apply H; [simpl; lia|reflexivity].
Defined.

(** ** What [json.dumps] writes can be read back *)

Lemma decode_escape_char (c : ascii) (rest : str) :
  JsonRead.decode_chars (Json.escape_char c ++ rest)
  = match JsonRead.decode_chars rest with
    | Some r => Some (c :: r)
    | None => None
    end.
Proof. destruct c as [[] [] [] [] [] [] [] []]; reflexivity. Qed.

Lemma decode_escaped (s : str) :
  JsonRead.decode_chars (flat_map Json.escape_char s) = Some s.
Proof.
  induction s as [|c s IH]; [reflexivity|].
  cbn [flat_map]. rewrite decode_escape_char, IH. reflexivity.
Qed.

(** The encoding of strings loses nothing: reading back what
    [json.dumps] wrote for a string gives the string, so two different
    texts, messages or paths are never printed the same way. *)
Theorem encode_string_round_trip :
  (forall s, JsonRead.decode_string (Json.encode_string s) = Some s)
  /\ (forall a b, Json.encode_string a = Json.encode_string b -> a = b).
Proof.
  assert (R : forall s, JsonRead.decode_string (Json.encode_string s) = Some s).
  { intros s. unfold JsonRead.decode_string, Json.encode_string.
    rewrite rev_unit, rev_involutive. cbn [Ascii.eqb andb].
    change (Ascii.eqb Json.quote Json.quote) with true. cbn [andb].
    apply decode_escaped. }
  split; [exact R|].
  intros a b E. pose proof (R a) as Ha. rewrite E, R in Ha.
  injection Ha as ->. reflexivity.
Qed.
